(** * Frame detection pipeline of the WebRTC inference server

    A shallow embedding of [apps/inference/main.py]: the letterbox geometry
    ([preprocess_letterbox]), the YOLOv8 output decoder ([decode_yolov8]),
    greedy non-maximum suppression ([nms]) and the websocket session loop
    ([detect_ws]), followed by the properties the specification states
    about them.

    Numbers.  Python [int] is [Z].  Python and NumPy floats are modelled by
    exact rationals [Q]: comparisons, [min], [max], [round] and the field
    operations are the mathematical ones, so IEEE rounding, infinities and
    NaN are outside the model.  [np.exp] has no rational counterpart and is
    kept as a parameter ([sigmoid]). *)

From Stdlib Require Import QArith Qround Qabs Lqa ZArith Lia.
From stdpp Require Import base option list sorting strings gmap.

Local Open Scope Q_scope.

(** ** Python numerics *)

Module Py.

(** [a < b] on floats, as a boolean. *)
Definition ltb (a b : Q) : bool := negb (Qle_bool b a).

(** [a <= b] on floats, as a boolean. *)
Definition leb (a b : Q) : bool := Qle_bool a b.

(** The builtin [max(a, b)]: the first argument unless the second is
    strictly larger. *)
Definition max (a b : Q) : Q := if ltb a b then b else a.

(** The builtin [min(a, b)]: the first argument unless the second is
    strictly smaller. *)
Definition min (a b : Q) : Q := if ltb b a then b else a.

(** The builtin [round(x)] with one argument: nearest integer, ties to the
    even neighbour. *)
Definition round (x : Q) : Z :=
  let f := Qfloor x in
  let r := x - inject_Z f in
  if ltb r (1 # 2) then f
  else if ltb (1 # 2) r then (f + 1)%Z
  else if Z.even f then f else (f + 1)%Z.

(** [int(x)] on a float: truncation towards zero. *)
Definition trunc (x : Q) : Z :=
  if ltb x 0 then Qceiling x else Qfloor x.

End Py.

(** ** Exceptions

    [result A] is a computation that returns an [A] or raises.  Only the
    exception classes that the modelled code can raise are listed;
    [Foreign] stands for whatever an external collaborator (codec, imaging
    library, inference engine) raises. *)

Inductive exn : Type :=
| AttributeError
| TypeError
| ValueError
| ZeroDivisionError
| IndexError
| Foreign (what : string).

Inductive result (A : Type) : Type :=
| Ok (a : A)
| Raise (e : exn).

Arguments Ok {A} a.
Arguments Raise {A} e.

#[global] Instance result_ret : MRet result := fun A a => Ok a.

#[global] Instance result_bind : MBind result := fun A B k m =>
  match m with
  | Ok a => k a
  | Raise e => Raise e
  end.

Definition is_ok {A : Type} (m : result A) : bool :=
  match m with Ok _ => true | Raise _ => false end.

(** ** Detections *)

(** The dict appended at lines 144-151 of the source. *)
Record Detection : Type := mkDetection {
  label : Z;
  score : Q;
  xmin : Q;
  ymin : Q;
  xmax : Q;
  ymax : Q
}.

(** ** Greedy NMS (lines 155-178) *)

(** The nested function [iou] of [nms]. *)
Definition iou (a b : Detection) : Q :=
  let x1 := Py.max (xmin a) (xmin b) in
  let y1 := Py.max (ymin a) (ymin b) in
  let x2 := Py.min (xmax a) (xmax b) in
  let y2 := Py.min (ymax a) (ymax b) in
  let inter := Py.max 0 (x2 - x1) * Py.max 0 (y2 - y1) in
  let area_a := Py.max 0 (xmax a - xmin a) * Py.max 0 (ymax a - ymin a) in
  let area_b := Py.max 0 (xmax b - xmin b) * Py.max 0 (ymax b - ymin b) in
  let union := area_a + area_b - inter in
  if Py.leb union 0 then 0 else inter / union.

(** [sorted(dets, key=lambda d: d["score"], reverse=True)].  Python's sort
    is stable, also with [reverse=True]: records with equal scores keep
    their input order.  [insert_desc d l] places [d], which preceded every
    element of [l] in the input, in front of the first element whose score
    is not strictly larger. *)
Fixpoint insert_desc (d : Detection) (l : list Detection) : list Detection :=
  match l with
  | [] => [d]
  | x :: xs =>
      if Py.ltb (score d) (score x) then x :: insert_desc d xs
      else d :: x :: xs
  end.

Fixpoint sorted_desc (dets : list Detection) : list Detection :=
  match dets with
  | [] => []
  | d :: ds => insert_desc d (sorted_desc ds)
  end.

(** The inner [for k in keep] loop: [ok] ends up [False] exactly when some
    kept box overlaps [d] by more than the threshold. *)
Definition suppressed (iou_thresh : Q) (d : Detection) (keep : list Detection) : bool :=
  existsb (fun k => Py.ltb iou_thresh (iou d k)) keep.

(** The outer [for d in dets] loop, with [keep] as accumulator.  The test
    on [len(keep)] comes after the append, as in the source. *)
Fixpoint nms_loop (iou_thresh : Q) (max_det : Z)
    (keep : list Detection) (dets : list Detection) : list Detection :=
  match dets with
  | [] => keep
  | d :: ds =>
      if suppressed iou_thresh d keep then nms_loop iou_thresh max_det keep ds
      else
        let keep' := keep ++ [d] in
        if (max_det <=? Z.of_nat (length keep'))%Z then keep'
        else nms_loop iou_thresh max_det keep' ds
  end.

Definition nms (dets : list Detection) (iou_thresh : Q) (max_det : Z) : list Detection :=
  match dets with
  | [] => []
  | _ => nms_loop iou_thresh max_det [] (sorted_desc dets)
  end.

(** Descending by score: every element scores at least as much as all the
    elements after it. *)
Definition score_ge (a b : Detection) : Prop := score b <= score a.

Definition sorted_by_score (l : list Detection) : Prop := StronglySorted score_ge l.

(** ** External collaborators

    The codec, the imaging library, the array library's pixel conversions,
    the inference session, the monotonic clock and the numeric parsers of
    [int(str)] and [float(str)] are outside the source; the embedding takes
    them as one interface.  Any of the calls that can raise in Python
    returns a [result]. *)

(** A NumPy array of floats: its [shape] and its elements in row-major
    order. *)
Record ndarray : Type := mk_ndarray {
  shape : list nat;
  data : list Q
}.

Class Backend : Type := {
  Image : Type;
  Tensor : Type;
  (** [Image.open(io.BytesIO(base64.b64decode(b64))).convert("RGB")] *)
  image_open : string -> result Image;
  (** [img.size], as (width, height) *)
  image_size : Image -> Z * Z;
  (** [Image.new("RGB", (n, n), (0, 0, 0))] *)
  image_new : Z -> result Image;
  (** [img.resize((w, h))] *)
  image_resize : Image -> Z * Z -> result Image;
  (** [canvas.paste(resized, (dx, dy))], returning the canvas after the
      in-place update *)
  image_paste : Image -> Image -> Z * Z -> result Image;
  (** lines 79-81: scale to 0..1, reorder to CHW, add the batch axis *)
  to_nchw : Image -> Tensor;
  (** [SESSION.get_inputs()[0].name] *)
  session_input_name : result string;
  (** lines 210 and 212: [SESSION.run] on the named input, and the dict of
      its outputs as (name, array) pairs in key order *)
  session_run : string -> Tensor -> result (list (string * ndarray));
  (** [1 / (1 + np.exp(-x))] on one element *)
  sigmoid : Q -> Q;
  (** the n-th reading of [time.perf_counter()] *)
  perf_counter : nat -> Q;
  (** [int(s)] and [float(s)] on a string; [None] is [ValueError] *)
  int_of_str : string -> option Z;
  float_of_str : string -> option Q
}.

(** ** Letterbox transform (lines 66-82) *)

(** The dict returned next to the tensor. *)
Record Letterbox : Type := mkLetterbox {
  dx : Z;
  dy : Z;
  draw_w : Z;
  draw_h : Z;
  model : Z;
  src_w : Z;
  src_h : Z
}.

(** [a / b] on two ints: a float, or [ZeroDivisionError]. *)
Definition truediv (a b : Z) : result Q :=
  if (b =? 0)%Z then Raise ZeroDivisionError
  else Ok (inject_Z a / inject_Z b).

(** Lines 68-73: the geometry, which needs the image's size only. *)
Definition letterbox_geometry (size : Z * Z) (model_size : Z) : result Letterbox :=
  let '(w, h) := size in
  sx ← truediv model_size w;
  sy ← truediv model_size h;
  let scale := Py.min sx sy in
  let dw := Py.round (inject_Z w * scale) in
  let dh := Py.round (inject_Z h * scale) in
  Ok {| dx := (model_size - dw) `div` 2;
        dy := (model_size - dh) `div` 2;
        draw_w := dw; draw_h := dh;
        model := model_size; src_w := w; src_h := h |}.

Section Pipeline.

Context `{B : Backend}.

Definition preprocess_letterbox (img : Image) (model_size : Z)
    : result (Tensor * Letterbox) :=
  lb ← letterbox_geometry (image_size img) model_size;
  canvas ← image_new model_size;
  resized ← image_resize img (draw_w lb, draw_h lb);
  canvas ← image_paste canvas resized (dx lb, dy lb);
  Ok (to_nchw canvas, lb).

(** ** Detection decoder (lines 89-152) *)

(** [list(outputs.keys())[0]] and [outputs[name]]. *)
Definition first_output (outputs : list (string * ndarray)) : result ndarray :=
  match outputs with
  | [] => Raise IndexError
  | (_, out) :: _ => Ok out
  end.

(** The first [r] rows of length [c] of a row-major buffer. *)
Fixpoint rows_of (r c : nat) (buf : list Q) : list (list Q) :=
  match r with
  | O => []
  | S r' => take c buf :: rows_of r' c (drop c buf)
  end.

(** [m.transpose(1, 0)] for a matrix with [c] columns. *)
Definition transpose (c : nat) (m : list (list Q)) : list (list Q) :=
  map (fun j => map (fun row => nth j row 0) m) (seq 0 c).

(** [a[start:stop]] for bounds that are not negative. *)
Definition py_slice {A : Type} (start stop : Z) (l : list A) : list A :=
  take (Z.to_nat (stop - start)) (drop (Z.to_nat start) l).

(** [m[i, :]] *)
Definition row (i : nat) (m : list (list Q)) : result (list Q) :=
  match m !! i with
  | Some r => Ok r
  | None => Raise IndexError
  end.

(** The two layouts of the raw output, and the test of line 101. *)
Inductive layout : Type := ChannelFirst | BoxFirst.

Definition choose_layout (d1 d2 : nat) : layout :=
  if (6 <=? d1)%nat && (d1 <? d2)%nat then ChannelFirst else BoxFirst.

(** Lines 101-110: [(num_classes, num_props, x)] with [x] channel-first.
    [data.reshape(dims)[0]] is the first batch entry. *)
Definition channel_first (out : ndarray) (d0 d1 d2 : nat)
    : result (Z * nat * list (list Q)) :=
  batch0 ← (if (d0 =? 0)%nat then Raise IndexError
            else Ok (rows_of d1 d2 (data out)));
  match choose_layout d1 d2 with
  | ChannelFirst => Ok ((Z.of_nat d1 - 4)%Z, d2, batch0)
  | BoxFirst => Ok ((Z.of_nat d2 - 4)%Z, d1, transpose d2 batch0)
  end.

(** [a.max()] and [a.min()] of a non-empty array. *)
Definition amax (v : Q) (vs : list Q) : Q :=
  fold_left (fun m y => if Py.ltb m y then y else m) vs v.

Definition amin (v : Q) (vs : list Q) : Q :=
  fold_left (fun m y => if Py.ltb y m then y else m) vs v.

(** [np.argmax] of one column: the first index of the largest value. *)
Fixpoint argmax_from (best : nat) (bv : Q) (i : nat) (col : list Q) : nat :=
  match col with
  | [] => best
  | v :: vs =>
      if Py.ltb bv v then argmax_from i v (S i) vs
      else argmax_from best bv (S i) vs
  end.

Definition argmax (col : list Q) : nat :=
  match col with
  | [] => O
  | v :: vs => argmax_from O v 1 vs
  end.

Definition column (j : nat) (m : list (list Q)) : list Q :=
  map (fun r => nth j r 0) m.

(** [max(0.0, min(1.0, v))] *)
Definition clamp01 (v : Q) : Q := Py.max 0 (Py.min 1 v).

(** One iteration of the loop at lines 134-151, for the candidate whose
    score, class and model-space corners are given: [None] is [continue]. *)
Definition candidate (lb : Letterbox) (score_thresh : Q)
    (cls : nat) (s x1 y1 x2 y2 : Q) : option Detection :=
  if Py.ltb s score_thresh then None
  else
    let nx1 := clamp01 (x1 / inject_Z (src_w lb)) in
    let ny1 := clamp01 (y1 / inject_Z (src_h lb)) in
    let nx2 := clamp01 (x2 / inject_Z (src_w lb)) in
    let ny2 := clamp01 (y2 / inject_Z (src_h lb)) in
    if Py.leb nx2 nx1 || Py.leb ny2 ny1 then None
    else Some {| label := Z.of_nat cls; score := s;
                 xmin := nx1; ymin := ny1; xmax := nx2; ymax := ny2 |}.

(** Lines 113-151 on the channel-first matrix [x].  Where [draw_w] or
    [draw_h] is 0 NumPy divides to inf or nan, which [Q] does not have;
    the clamp of [candidate] bounds the result either way. *)
Definition decode_rows (lb : Letterbox) (score_thresh : Q)
    (num_classes : Z) (num_props : nat) (x : list (list Q))
    : result (list Detection) :=
  let boxes := py_slice 0 4 x in
  let scores := py_slice 4 (4 + num_classes) x in
  match concat scores with
  | [] => Raise ValueError
  | v :: vs =>
      let scores :=
        if Py.ltb 1 (amax v vs) || Py.ltb (amin v vs) 0
        then map (map sigmoid) scores else scores in
      let best_cls := fun i => argmax (column i scores) in
      let best_score := fun i => nth i (nth (best_cls i) scores []) 0 in
      cx ← row 0 boxes;
      cy ← row 1 boxes;
      w ← row 2 boxes;
      h ← row 3 boxes;
      let ddx := inject_Z (dx lb) in
      let ddy := inject_Z (dy lb) in
      let dw := inject_Z (draw_w lb) in
      let dh := inject_Z (draw_h lb) in
      let sw := inject_Z (src_w lb) in
      let sh := inject_Z (src_h lb) in
      let x1 := fun i => (nth i cx 0 - nth i w 0 / 2 - ddx) / dw * sw in
      let y1 := fun i => (nth i cy 0 - nth i h 0 / 2 - ddy) / dh * sh in
      let x2 := fun i => (nth i cx 0 + nth i w 0 / 2 - ddx) / dw * sw in
      let y2 := fun i => (nth i cy 0 + nth i h 0 / 2 - ddy) / dh * sh in
      Ok (omap (fun i => candidate lb score_thresh (best_cls i) (best_score i)
                           (x1 i) (y1 i) (x2 i) (y2 i))
               (seq 0 num_props))
  end.

(** The guard of line 100. *)
Definition expected_shape (dims : list nat) : bool :=
  match dims with
  | [_; d1; d2] => (6 <=? d1)%nat || (6 <=? d2)%nat
  | _ => false
  end.

Definition decode_yolov8 (outputs : list (string * ndarray)) (lb : Letterbox)
    (score_thresh : Q) : result (list Detection) :=
  out ← first_output outputs;
  match shape out with
  | [d0; d1; d2] =>
      if (6 <=? d1)%nat || (6 <=? d2)%nat then
        '(num_classes, num_props, x) ← channel_first out d0 d1 d2;
        decode_rows lb score_thresh num_classes num_props x
      else Ok []
  | _ => Ok []
  end.

End Pipeline.

(** ** Frame session loop (lines 183-227) *)

(** A value produced by [ws.receive_json()]: what [json.loads] builds,
    with finite numbers. *)
#[warnings="-register-all"]
Inductive pyval : Type :=
| VNone
| VBool (b : bool)
| VInt (z : Z)
| VFloat (q : Q)
| VStr (s : string)
| VList (l : list pyval)
| VDict (m : gmap string pyval).

(** What [await ws.receive_json()] does on one turn of the loop. *)
Inductive recv : Type :=
| Received (msg : pyval)
| RecvError          (* any exception other than WebSocketDisconnect *)
| Disconnected.      (* WebSocketDisconnect *)

(** A message handed to [ws.send_json]. *)
Inductive response : Type :=
| ErrorOnly (error : string)
    (* {"error": error} *)
| FrameError (frame_id : Z) (e : exn)
    (* {"frame_id": frame_id, "error": str(e)} *)
| FrameResult (frame_id : Z) (capture_ts recv_ts inference_ts inference_ms : Q)
    (detections : list Detection).
    (* the dict of lines 217-225; server_recv_ts repeats recv_ts *)

(** How a run of the handler stands after a finite inbound stream. *)
Inductive outcome : Type :=
| Returned            (* the loop was left by [break] *)
| Propagated (e : exn) (* an exception left [detect_ws] *)
| Receiving.          (* blocked in [receive_json] *)

(** [bool(v)] *)
Definition truthy (v : pyval) : bool :=
  match v with
  | VNone => false
  | VBool b => b
  | VInt z => negb (z =? 0)%Z
  | VFloat q => negb (Qeq_bool q 0)
  | VStr s => negb (String.eqb s "")
  | VList l => match l with [] => false | _ => true end
  | VDict m => negb (bool_decide (m = ∅))
  end.

(** [msg.get(key, dflt)]: a dict method, missing on every other value. *)
Definition py_get (msg : pyval) (key : string) (dflt : pyval) : result pyval :=
  match msg with
  | VDict m => Ok (default dflt (m !! key))
  | _ => Raise AttributeError
  end.

(** The text after the first comma, if there is a comma
    ([data_url.split(",", 1)]). *)
Fixpoint after_comma (s : string) : option string :=
  match s with
  | EmptyString => None
  | String c rest =>
      if Ascii.eqb c (Ascii.ascii_of_nat 44) then Some rest
      else after_comma rest
  end.

Definition is_comma (v : pyval) : bool :=
  match v with
  | VStr s => String.eqb s ","
  | _ => false
  end.

(** The state of a handler run is the number of clock readings taken so
    far; a computation returns or raises, and leaves a state. *)
Definition M (A : Type) : Type := nat -> result A * nat.

#[global] Instance M_ret : MRet M := fun A a t => (Ok a, t).

#[global] Instance M_bind : MBind M := fun A B k m t =>
  match m t with
  | (Ok a, t') => k a t'
  | (Raise e, t') => (Raise e, t')
  end.

Definition lift {A : Type} (r : result A) : M A := fun t => (r, t).

(** [try: body except Exception as e: handler(e)] *)
Definition try_except {A : Type} (body : M A) (handler : exn -> M A) : M A :=
  fun t =>
    match body t with
    | (Ok a, t') => (Ok a, t')
    | (Raise e, t') => handler e t'
    end.

Section Session.

Context `{B : Backend}.

(** [int(v)] *)
Definition py_int (v : pyval) : result Z :=
  match v with
  | VBool b => Ok (Z.b2z b)
  | VInt z => Ok z
  | VFloat q => Ok (Py.trunc q)
  | VStr s => match int_of_str s with Some z => Ok z | None => Raise ValueError end
  | VNone | VList _ | VDict _ => Raise TypeError
  end.

(** [float(v)] *)
Definition py_float (v : pyval) : result Q :=
  match v with
  | VBool b => Ok (inject_Z (Z.b2z b))
  | VInt z => Ok (inject_Z z)
  | VFloat q => Ok q
  | VStr s => match float_of_str s with Some q => Ok q | None => Raise ValueError end
  | VNone | VList _ | VDict _ => Raise TypeError
  end.

(** Lines 55-63.  On a string the payload after the first comma, or the
    whole string, goes to the codec.  Any other value fails on the way:
    [in] needs a container, [split] needs a string and [b64decode] needs
    text or bytes. *)
Definition decode_image_from_b64 (data_url : pyval) : result Image :=
  match data_url with
  | VStr s => image_open (default s (after_comma s))
  | VList l => if existsb is_comma l then Raise AttributeError else Raise TypeError
  | VDict m => if bool_decide (is_Some (m !! ",")) then Raise AttributeError
               else Raise TypeError
  | VNone | VBool _ | VInt _ | VFloat _ => Raise TypeError
  end.

(** [MODEL_INPUT_SIZE] *)
Definition MODEL_INPUT_SIZE : Z := 320.

(** [time.perf_counter() * 1000.0] *)
Definition now_ms : M Q := fun t => (Ok (perf_counter t * 1000), S t).

(** The [try] block of lines 205-225. *)
Definition process_frame (frame_id : Z) (capture_ts server_recv_ts : Q)
    (image_b64 : pyval) : M response :=
  img ← lift (decode_image_from_b64 image_b64);
  '(arr, lb) ← lift (preprocess_letterbox img MODEL_INPUT_SIZE);
  name ← lift session_input_name;
  t0 ← now_ms;
  outputs ← lift (session_run name arr);
  t1 ← now_ms;
  dets ← lift (decode_yolov8 outputs lb (25 # 100));
  let dets := nms dets (45 # 100) 50 in
  mret (FrameResult frame_id capture_ts server_recv_ts t1 (t1 - t0) dets).

(** Line 195: [int(msg.get("frame_id", -1))] *)
Definition frame_id_of (msg : pyval) : result Z :=
  py_get msg "frame_id" (VInt (-1)) ≫= py_int.

(** Line 196: [float(msg.get("capture_ts", 0))] *)
Definition capture_ts_of (msg : pyval) : result Q :=
  py_get msg "capture_ts" (VInt 0) ≫= py_float.

(** Lines 195-227: one received message, up to its response.  The
    conversions of [frame_id] and [capture_ts] stand before the [try]. *)
Definition handle_message (msg : pyval) : M response :=
  frame_id ← lift (frame_id_of msg);
  capture_ts ← lift (capture_ts_of msg);
  image_b64 ← lift (py_get msg "image_b64" VNone);
  if negb (truthy image_b64) then mret (ErrorOnly "missing image_b64")
  else
    server_recv_ts ← now_ms;
    try_except (process_frame frame_id capture_ts server_recv_ts image_b64)
               (fun e => mret (FrameError frame_id e)).

(** The [while True] loop over what [receive_json] yields, from clock
    state [t]: the messages sent, in order, and how the run stands. *)
Fixpoint detect_ws (inbound : list recv) (t : nat) : list response * outcome :=
  match inbound with
  | [] => ([], Receiving)
  | Disconnected :: _ => ([], Returned)
  | RecvError :: rest => detect_ws rest t
  | Received msg :: rest =>
      match handle_message msg t with
      | (Ok r, t') => let '(sent, o) := detect_ws rest t' in (r :: sent, o)
      | (Raise e, _) => ([], Propagated e)
      end
  end.

End Session.

(** ** Predicates of the specification *)

(** The area of the union, as [iou] computes it. *)
Definition union_area (a b : Detection) : Q :=
  Py.max 0 (xmax a - xmin a) * Py.max 0 (ymax a - ymin a)
  + Py.max 0 (xmax b - xmin b) * Py.max 0 (ymax b - ymin b)
  - Py.max 0 (Py.min (xmax a) (xmax b) - Py.max (xmin a) (xmin b))
    * Py.max 0 (Py.min (ymax a) (ymax b) - Py.max (ymin a) (ymin b)).

(** No box overlaps a box before it by more than the threshold; the
    arguments of [iou] are in the order of the source. *)
Definition separated (iou_thresh : Q) (l : list Detection) : Prop :=
  ForallOrdPairs (fun k d => iou d k <= iou_thresh) l.

(** The layout rule in the words of the specification (section 4.2,
    step 1): channel-first when the first non-batch dimension is at most
    the second.  It is here for comparison with [choose_layout]. *)
Definition layout_as_specified (d1 d2 : nat) : layout :=
  if (d1 <=? d2)%nat then ChannelFirst else BoxFirst.

(** Equality of scores is decidable. *)
#[global] Instance Qeq_decision : RelDecision Qeq := Qeq_dec.

(** The normalisation bound on a detection's box. *)
Definition box_ok (d : Detection) : Prop :=
  0 <= xmin d /\ xmin d < xmax d /\ xmax d <= 1 /\
  0 <= ymin d /\ ymin d < ymax d /\ ymax d <= 1.

(** A response is well formed if the detections of a frame result are. *)
Definition response_ok (r : response) : Prop :=
  match r with
  | FrameResult _ _ _ _ _ dets => Forall box_ok dets
  | _ => True
  end.

(** A response that reports a failure. *)
Definition is_error (r : response) : bool :=
  match r with
  | ErrorOnly _ | FrameError _ _ => true
  | FrameResult _ _ _ _ _ _ => false
  end.

(** ** A concrete backend

    The examples run the pipeline on a small backend.  An image is its
    size, given to the codec as text; the imaging calls reject the sizes
    that Pillow rejects (a negative canvas side, a resize target below
    1x1); the inference session returns one fixed array. *)

Module Sample.

Definition open (s : string) : result (Z * Z) :=
  if String.eqb s "640x480" then Ok (640, 480)%Z
  else if String.eqb s "320x320" then Ok (320, 320)%Z
  else if String.eqb s "640x1" then Ok (640, 1)%Z
  else Raise (Foreign "cannot identify image file").

Definition new (n : Z) : result (Z * Z) :=
  if (n <? 0)%Z then Raise ValueError else Ok (n, n).

Definition resize (img : Z * Z) (size : Z * Z) : result (Z * Z) :=
  if (size.1 <? 1)%Z || (size.2 <? 1)%Z then Raise ValueError else Ok size.

(** A rational stand-in for the logistic function, with values in (0,1). *)
Definition squash (x : Q) : Q := (1 # 2) + x / (2 * (1 + Qabs x)).

(** Unsigned decimal numerals. *)
Fixpoint digits (s : string) (acc : Z) : option Z :=
  match s with
  | EmptyString => Some acc
  | String c rest =>
      let n := Z.of_nat (Ascii.nat_of_ascii c) in
      if (48 <=? n)%Z && (n <=? 57)%Z then digits rest (10 * acc + (n - 48))%Z
      else None
  end.

Definition numeral (s : string) : option Z :=
  match s with
  | EmptyString => None
  | _ => digits s 0%Z
  end.

Definition backend (out : ndarray) : Backend := {|
  Image := Z * Z;
  Tensor := Z * Z;
  image_open := open;
  image_size := fun img => img;
  image_new := new;
  image_resize := resize;
  image_paste := fun canvas _ _ => Ok canvas;
  to_nchw := fun canvas => canvas;
  session_input_name := Ok "images";
  session_run := fun _ _ => Ok [("output0", out)];
  sigmoid := squash;
  perf_counter := fun n => inject_Z (Z.of_nat n);
  int_of_str := numeral;
  float_of_str := fun s => inject_Z <$> numeral s
|}.

(** One candidate in box-first layout, shape (1, 1, 6): a 100x100 box
    centred at (160, 160), class scores 0.9 and 0.1. *)
Definition one_box : ndarray :=
  {| shape := [1; 1; 6]%nat;
     data := [160; 160; 100; 100; 9 # 10; 1 # 10] |}.

(** An array of rank 2. *)
Definition rank2 : ndarray :=
  {| shape := [2; 3]%nat; data := [0; 0; 0; 0; 0; 0] |}.

(** A square array, shape (1, 6, 6), whose rows differ from its columns:
    element (i, j) is [6 * i + j]. *)
Definition square : ndarray :=
  {| shape := [1; 6; 6]%nat;
     data := map (fun n => inject_Z (Z.of_nat n)) (seq 0 36) |}.

Definition det (s x0 y0 x1 y1 : Q) : Detection :=
  {| label := 0; score := s; xmin := x0; ymin := y0; xmax := x1; ymax := y1 |}.

(** A frame message with an image of the given size text. *)
Definition frame (id : Z) (img : string) : pyval :=
  VDict (<["frame_id" := VInt id]> (<["capture_ts" := VInt 7]>
        (<["image_b64" := VStr img]> ∅))).

End Sample.

(** No two detections of the list have the same score. *)
Definition distinct_scores (l : list Detection) : Prop :=
  ForallOrdPairs (fun a b => ~ score a == score b) l.

(** Comparison of scores is decidable. *)
#[global] Instance Qle_decision : RelDecision Qle := fun x y =>
  match Qlt_le_dec y x with
  | left Hlt => right (Qlt_not_le y x Hlt)
  | right Hle => left Hle
  end.

(** A function applied to the value a computation returns. *)
#[global] Instance result_fmap : FMap result := fun A C f m =>
  match m with
  | Ok a => Ok (f a)
  | Raise e => Raise e
  end.

(** The messages [receive_json] delivers before the first disconnect. *)
Fixpoint received (inbound : list recv) : list pyval :=
  match inbound with
  | [] => []
  | Disconnected :: _ => []
  | RecvError :: rest => received rest
  | Received msg :: rest => msg :: received rest
  end.

(** The timestamps of a response in the order they are taken: receipt,
    start of inference, end of inference. *)
Definition stamps (r : response) : list Q :=
  match r with
  | FrameResult _ _ recv_ts inference_ts inference_ms _ =>
      [recv_ts; inference_ts - inference_ms; inference_ts]
  | _ => []
  end.

Section SessionPredicates.

Context `{B : Backend}.

(** The response answers the message: a result or a frame error carries
    the message's frame id (a result also its capture time), and the
    "missing image_b64" error stands for a payload that is not truthy. *)
Definition answers (msg : pyval) (r : response) : Prop :=
  match r with
  | ErrorOnly error =>
      error = "missing image_b64" /\
      exists image, py_get msg "image_b64" VNone = Ok image /\ truthy image = false
  | FrameError f _ => frame_id_of msg = Ok f
  | FrameResult f c _ _ _ _ => frame_id_of msg = Ok f /\ capture_ts_of msg = Ok c
  end.

(** The first stage of the [try] block that raises on the payload [image],
    and what it raises: the image codec, the letterbox transform, the
    session's input name, the inference run or the decoder. *)
Definition first_failure (image : pyval) (e : exn) : Prop :=
  decode_image_from_b64 image = Raise e \/
  exists img, decode_image_from_b64 image = Ok img /\
  (preprocess_letterbox img MODEL_INPUT_SIZE = Raise e \/
   exists arr lb, preprocess_letterbox img MODEL_INPUT_SIZE = Ok (arr, lb) /\
   (session_input_name = Raise e \/
    exists name, session_input_name = Ok name /\
    (session_run name arr = Raise e \/
     exists outputs, session_run name arr = Ok outputs /\
                     decode_yolov8 outputs lb (25 # 100) = Raise e))).

(** The clock does not run backwards. *)
Definition monotone_clock : Prop :=
  forall n, perf_counter n <= perf_counter (S n).

End SessionPredicates.

(** The sample backend with a codec that decodes every payload to an image
    of width 0. *)
Definition zero_width_backend : Backend := {|
  Image := Z * Z;
  Tensor := Z * Z;
  image_open := fun _ => Ok (0, 480)%Z;
  image_size := fun img => img;
  image_new := Sample.new;
  image_resize := Sample.resize;
  image_paste := fun canvas _ _ => Ok canvas;
  to_nchw := fun canvas => canvas;
  session_input_name := Ok "images";
  session_run := fun _ _ => Ok [("output0", Sample.one_box)];
  sigmoid := Sample.squash;
  perf_counter := fun n => inject_Z (Z.of_nat n);
  int_of_str := Sample.numeral;
  float_of_str := fun s => inject_Z <$> Sample.numeral s
|}.

(** The string holds no comma. *)
Definition no_comma (s : string) : Prop :=
  Forall (fun c => c <> Ascii.ascii_of_nat 44) (String.list_ascii_of_string s).

(** What a client can rely on in a response: a frame result holds at most
    50 detections in descending score order, each scoring at least 0.25,
    no one overlapping an earlier one by more than 0.45. *)
Definition result_ok (r : response) : Prop :=
  match r with
  | FrameResult _ _ _ _ _ dets =>
      (length dets <= 50)%nat /\ sorted_by_score dets /\
      Forall (fun d => 25 # 100 <= score d) dets /\
      separated (45 # 100) dets
  | _ => True
  end.

(** * Properties *)

(** ** Comparisons, [min], [max] and [round] *)

Lemma ltb_lt (a b : Q) : Py.ltb a b = true <-> a < b.
Proof.
  unfold Py.ltb. rewrite negb_true_iff, <- not_true_iff_false, Qle_bool_iff.
  split; [apply Qnot_le_lt | apply Qlt_not_le].
Qed.

Lemma ltb_ge (a b : Q) : Py.ltb a b = false <-> b <= a.
Proof.
  unfold Py.ltb. rewrite negb_false_iff. apply Qle_bool_iff.
Qed.

Lemma leb_le (a b : Q) : Py.leb a b = true <-> a <= b.
Proof. apply Qle_bool_iff. Qed.

Lemma leb_gt (a b : Q) : Py.leb a b = false <-> b < a.
Proof.
  unfold Py.leb. rewrite <- not_true_iff_false, Qle_bool_iff.
  split; [apply Qnot_le_lt | apply Qlt_not_le].
Qed.

(** Case analysis on a comparison, leaving the order fact in the context. *)
Ltac case_ltb a b :=
  let H := fresh "Hcmp" in
  destruct (Py.ltb a b) eqn:H;
  [apply ltb_lt in H | apply ltb_ge in H].

Ltac case_leb a b :=
  let H := fresh "Hcmp" in
  destruct (Py.leb a b) eqn:H;
  [apply leb_le in H | apply leb_gt in H].

Lemma max_spec (a b : Q) : a <= Py.max a b /\ b <= Py.max a b /\
  (Py.max a b = a \/ Py.max a b = b).
Proof. unfold Py.max. case_ltb a b; repeat split; auto; lra. Qed.

Lemma min_spec (a b : Q) : Py.min a b <= a /\ Py.min a b <= b /\
  (Py.min a b = a \/ Py.min a b = b).
Proof. unfold Py.min. case_ltb b a; repeat split; auto; lra. Qed.

Lemma max_comm (a b : Q) : Py.max a b == Py.max b a.
Proof. unfold Py.max. case_ltb a b; case_ltb b a; lra. Qed.

Lemma min_comm (a b : Q) : Py.min a b == Py.min b a.
Proof. unfold Py.min. case_ltb a b; case_ltb b a; lra. Qed.

Lemma max_compat (a a' b b' : Q) : a == a' -> b == b' -> Py.max a b == Py.max a' b'.
Proof. intros Ha Hb. unfold Py.max. case_ltb a b; case_ltb a' b'; lra. Qed.

Lemma clamp01_bounds (v : Q) : 0 <= clamp01 v <= 1.
Proof.
  unfold clamp01, Py.max, Py.min.
  case_ltb v 1; [case_ltb 0 v | case_ltb 0 1]; lra.
Qed.

(** [round] returns an integer within one half of its argument. *)
Lemma round_near (x : Q) :
  inject_Z (Py.round x) - (1 # 2) <= x <= inject_Z (Py.round x) + (1 # 2).
Proof.
  pose proof (Qfloor_le x) as Hlo. pose proof (Qlt_floor x) as Hhi.
  rewrite inject_Z_plus in Hhi. change (inject_Z 1) with 1 in Hhi.
  assert (Hup : inject_Z (Qfloor x + 1) == inject_Z (Qfloor x) + 1)
    by (rewrite inject_Z_plus; reflexivity).
  unfold Py.round.
  case_ltb (x - inject_Z (Qfloor x)) (1 # 2); [lra |].
  case_ltb (1 # 2) (x - inject_Z (Qfloor x)); [lra |].
  destruct (Z.even (Qfloor x)); lra.
Qed.

(** On an exact tie [round] returns the even neighbour. *)
Lemma round_tie_even (x : Q) :
  x - inject_Z (Qfloor x) == 1 # 2 -> Z.even (Py.round x) = true.
Proof.
  intros Htie. unfold Py.round.
  case_ltb (x - inject_Z (Qfloor x)) (1 # 2); [lra |].
  case_ltb (1 # 2) (x - inject_Z (Qfloor x)); [lra |].
  destruct (Z.even (Qfloor x)) eqn:He; [exact He |].
  rewrite Z.even_add, He. reflexivity.
Qed.

(** [round] does not pass an integer upper bound of its argument. *)
Lemma round_le_int (x : Q) (n : Z) : x <= inject_Z n -> (Py.round x <= n)%Z.
Proof.
  intros Hx.
  pose proof (Qfloor_le x) as Hlo.
  assert (Hfn : (Qfloor x <= n)%Z).
  { rewrite Zle_Qle. lra. }
  destruct (Z.eq_dec (Qfloor x) n) as [Heq | Hne].
  - unfold Py.round. rewrite Heq in *.
    case_ltb (x - inject_Z n) (1 # 2); [lia | lra].
  - assert (Qfloor x + 1 <= n)%Z by lia.
    unfold Py.round.
    destruct (Py.ltb _ _); [lia |].
    destruct (Py.ltb _ _); [lia |].
    destruct (Z.even _); lia.
Qed.

(** ** Sorting by descending score *)

#[local] Instance score_ge_trans : Transitive score_ge.
Proof. intros a b c Hab Hbc. unfold score_ge in *. lra. Qed.

Lemma insert_desc_perm (d : Detection) (l : list Detection) :
  insert_desc d l ≡ₚ d :: l.
Proof.
  induction l as [| x xs IH]; simpl; [reflexivity |].
  destruct (Py.ltb (score d) (score x)); [| reflexivity].
  rewrite IH. apply Permutation_swap.
Qed.

Lemma sorted_desc_perm (l : list Detection) : sorted_desc l ≡ₚ l.
Proof.
  induction l as [| d ds IH]; simpl; [reflexivity |].
  rewrite insert_desc_perm, IH. reflexivity.
Qed.

Lemma insert_desc_sorted (d : Detection) (l : list Detection) :
  sorted_by_score l -> sorted_by_score (insert_desc d l).
Proof.
  unfold sorted_by_score.
  induction 1 as [| x xs Hxs IH Hx]; simpl.
  - repeat constructor.
  - case_ltb (score d) (score x).
    + constructor; [exact IH |].
      rewrite insert_desc_perm. constructor; [| exact Hx].
      unfold score_ge. lra.
    + constructor; [constructor; assumption |].
      constructor; [exact Hcmp |].
      eapply Forall_impl; [exact Hx |].
      intros y Hy. unfold score_ge in *. lra.
Qed.

Lemma sorted_desc_sorted (l : list Detection) : sorted_by_score (sorted_desc l).
Proof.
  induction l as [| d ds IH]; simpl.
  - constructor.
  - apply insert_desc_sorted, IH.
Qed.

(** Stability: the records of any one score keep their input order. *)
Lemma insert_desc_stable (s : Q) (d : Detection) (l : list Detection) :
  filter (fun e => score e == s) (insert_desc d l)
  = filter (fun e => score e == s) (d :: l).
Proof.
  induction l as [| x xs IH]; simpl; [reflexivity |].
  case_ltb (score d) (score x); [| reflexivity].
  rewrite filter_cons, IH, !filter_cons.
  destruct (decide (score x == s)) as [Hx |]; [| reflexivity].
  destruct (decide (score d == s)) as [Hd |]; [| reflexivity].
  lra.
Qed.

Lemma sorted_desc_stable (s : Q) (l : list Detection) :
  filter (fun e => score e == s) (sorted_desc l)
  = filter (fun e => score e == s) l.
Proof.
  induction l as [| d ds IH]; simpl; [reflexivity |].
  rewrite insert_desc_stable, !filter_cons, IH. reflexivity.
Qed.

(** A list that is already in descending order is left as it is. *)
Lemma sorted_desc_id (l : list Detection) :
  sorted_by_score l -> sorted_desc l = l.
Proof.
  induction 1 as [| x xs Hxs IH Hx]; simpl; [reflexivity |].
  rewrite IH. destruct Hx as [| y ys Hy _]; simpl; [reflexivity |].
  case_ltb (score x) (score y); [| reflexivity].
  unfold score_ge in Hy. lra.
Qed.

(** A descending list is determined by its groups of equal score: two
    descending lists with the same records in the same order at every
    score are equal.  With [sorted_desc_sorted] and [sorted_desc_stable],
    [sorted_desc] is the only stable descending sort. *)
Lemma stable_sorted_unique (l1 l2 : list Detection) :
  sorted_by_score l1 -> sorted_by_score l2 ->
  (forall s, filter (fun e => score e == s) l1 = filter (fun e => score e == s) l2) ->
  l1 = l2.
Proof.
  unfold sorted_by_score. intros H1. revert l2.
  induction H1 as [| a l1 Hl1 IH Ha]; intros l2 H2 Hf.
  - destruct l2 as [| b l2]; [reflexivity |].
    specialize (Hf (score b)). rewrite filter_cons_True in Hf by reflexivity.
    discriminate.
  - destruct H2 as [| b l2 Hl2 Hb].
    { specialize (Hf (score a)). rewrite filter_cons_True in Hf by reflexivity.
      discriminate. }
    assert (Hab : score a == score b).
    { apply Qle_antisym.
      - assert (Hin : a ∈ b :: l2).
        { apply (list_elem_of_filter (fun e => score e == score a)).
          rewrite <- Hf, filter_cons_True by reflexivity. left. }
        apply elem_of_cons in Hin as [-> | Hin]; [lra |].
        rewrite Forall_forall in Hb. apply Hb, Hin.
      - assert (Hin : b ∈ a :: l1).
        { apply (list_elem_of_filter (fun e => score e == score b)).
          rewrite Hf, filter_cons_True by reflexivity. left. }
        apply elem_of_cons in Hin as [-> | Hin]; [lra |].
        rewrite Forall_forall in Ha. apply Ha, Hin. }
    pose proof (Hf (score a)) as Hhead.
    rewrite !filter_cons_True in Hhead by (lra || reflexivity).
    injection Hhead as <- _.
    f_equal. apply IH; [exact Hl2 |].
    intros s. specialize (Hf s). rewrite !filter_cons in Hf.
    destruct (decide (score a == s)); [injection Hf as Hf |]; exact Hf.
Qed.

Lemma sublist_sorted (l k : list Detection) :
  l `sublist_of` k -> sorted_by_score k -> sorted_by_score l.
Proof.
  unfold sorted_by_score.
  induction 1 as [| x l k Hlk IH | x l k Hlk IH]; intros Hk.
  - constructor.
  - apply StronglySorted_inv in Hk as [Hk Hx].
    constructor; [apply IH, Hk |].
    rewrite Forall_forall in *. intros y Hy. apply Hx.
    eapply elem_of_sublist; eassumption.
  - apply StronglySorted_inv in Hk as [Hk _]. apply IH, Hk.
Qed.

(** The head of the sorted list is the first input record of the largest
    score. *)
Lemma sorted_desc_head (l : list Detection) :
  l <> [] ->
  exists d rest pre post,
    sorted_desc l = d :: rest /\ l = pre ++ d :: post /\
    Forall (fun e => score e < score d) pre /\
    Forall (fun e => score e <= score d) post.
Proof.
  induction l as [| a l IH]; [congruence | intros _].
  destruct l as [| b l'].
  - exists a, [], [], []. simpl. repeat split; constructor.
  - destruct IH as (d & rest & pre & post & Hs & Hl & Hpre & Hpost); [congruence |].
    change (sorted_desc (a :: b :: l')) with (insert_desc a (sorted_desc (b :: l'))).
    rewrite Hs. simpl. case_ltb (score a) (score d).
    + exists d, (insert_desc a rest), (a :: pre), post.
      rewrite Hl. repeat split; [constructor |]; assumption.
    + exists a, (d :: rest), [], (b :: l').
      repeat split; [constructor |].
      rewrite Hl. apply Forall_app. split.
      * eapply Forall_impl; [exact Hpre |]. intros e He. simpl in He. lra.
      * constructor; [exact Hcmp |].
        eapply Forall_impl; [exact Hpost |]. intros e He. simpl in He. lra.
Qed.

(** ** Intersection over union *)

#[local] Instance max_proper : Proper (Qeq ==> Qeq ==> Qeq) Py.max.
Proof. intros a a' Ha b b' Hb. apply max_compat; assumption. Qed.

#[local] Instance min_proper : Proper (Qeq ==> Qeq ==> Qeq) Py.min.
Proof.
  intros a a' Ha b b' Hb. unfold Py.min.
  case_ltb b a; case_ltb b' a'; lra.
Qed.

(** A union that is not positive gives 0, not a division error. *)
Lemma iou_degenerate (a b : Detection) : union_area a b <= 0 -> iou a b = 0.
Proof.
  intros Hu. unfold iou. fold (union_area a b).
  apply leb_le in Hu. rewrite Hu. reflexivity.
Qed.

Lemma union_area_sym (a b : Detection) : union_area a b == union_area b a.
Proof.
  unfold union_area.
  rewrite (min_comm (xmax a)), (min_comm (ymax a)),
          (max_comm (xmin a)), (max_comm (ymin a)).
  ring.
Qed.

Lemma iou_sym (a b : Detection) : iou a b == iou b a.
Proof.
  pose proof (union_area_sym a b) as Hu.
  unfold iou. fold (union_area a b) (union_area b a).
  case_leb (union_area a b) 0; case_leb (union_area b a) 0; try lra.
  rewrite Hu.
  rewrite (min_comm (xmax a)), (min_comm (ymax a)),
          (max_comm (xmin a)), (max_comm (ymin a)).
  reflexivity.
Qed.

(** ** The greedy loop *)

Lemma suppressed_false (t : Q) (d : Detection) (keep : list Detection) :
  suppressed t d keep = false <-> Forall (fun k => iou d k <= t) keep.
Proof.
  unfold suppressed. induction keep as [| k ks IH]; simpl.
  - split; [constructor | reflexivity].
  - rewrite orb_false_iff, IH, Forall_cons, ltb_ge. reflexivity.
Qed.

Lemma separated_snoc (t : Q) (keep : list Detection) (d : Detection) :
  separated t keep -> Forall (fun k => iou d k <= t) keep ->
  separated t (keep ++ [d]).
Proof.
  unfold separated. induction 1 as [| k ks Hk Hks IH]; intros Hd; simpl.
  - repeat constructor.
  - apply Forall_cons in Hd as [Hkd Hd].
    constructor; [| apply IH, Hd].
    apply List.Forall_app. split; [exact Hk | repeat constructor; exact Hkd].
Qed.

(** The loop extends [keep] by a subsequence of the candidates, and run
    again on what it added, it adds the same. *)
Lemma nms_loop_extends (t : Q) (m : Z) (ds keep : list Detection) :
  exists r, nms_loop t m keep ds = keep ++ r /\ r `sublist_of` ds /\
            nms_loop t m keep r = keep ++ r.
Proof.
  revert keep. induction ds as [| d ds IH]; intros keep; simpl.
  - exists []. rewrite app_nil_r. repeat split. constructor.
  - destruct (suppressed t d keep) eqn:Hs.
    + destruct (IH keep) as (r & Hr & Hsub & Hre).
      exists r. repeat split; [exact Hr | apply sublist_cons, Hsub | exact Hre].
    + destruct (m <=? Z.of_nat (length (keep ++ [d])))%Z eqn:Hlen.
      * exists [d]. simpl. rewrite Hs, Hlen.
        repeat split. apply sublist_skip, sublist_nil_l.
      * destruct (IH (keep ++ [d])) as (r & Hr & Hsub & Hre).
        exists (d :: r). simpl. rewrite Hs, Hlen, Hr, Hre, <- !app_assoc.
        repeat split. apply sublist_skip, Hsub.
Qed.

Lemma nms_loop_separated (t : Q) (m : Z) (ds keep : list Detection) :
  separated t keep -> separated t (nms_loop t m keep ds).
Proof.
  revert keep. induction ds as [| d ds IH]; intros keep Hk; simpl; [exact Hk |].
  destruct (suppressed t d keep) eqn:Hs; [apply IH, Hk |].
  apply suppressed_false in Hs.
  destruct (m <=? _)%Z; [| apply IH]; apply separated_snoc; assumption.
Qed.

Lemma nms_loop_length (t : Q) (m : Z) (ds keep : list Detection) :
  (Z.of_nat (length keep) < m)%Z ->
  (Z.of_nat (length (nms_loop t m keep ds)) <= m)%Z.
Proof.
  revert keep. induction ds as [| d ds IH]; intros keep Hk; simpl; [lia |].
  destruct (suppressed t d keep); [apply IH, Hk |].
  destruct (m <=? _)%Z eqn:Hlen.
  - rewrite length_app in *. simpl in *. lia.
  - apply IH. lia.
Qed.

(** ** Greedy NMS *)

Lemma nms_sublist (dets : list Detection) (t : Q) (m : Z) :
  nms dets t m `sublist_of` sorted_desc dets.
Proof.
  destruct dets as [| d ds]; [constructor |].
  unfold nms.
  destruct (nms_loop_extends t m (sorted_desc (d :: ds)) []) as (r & Hr & Hsub & _).
  rewrite Hr. exact Hsub.
Qed.

Lemma nms_sorted (dets : list Detection) (t : Q) (m : Z) :
  sorted_by_score (nms dets t m).
Proof.
  eapply sublist_sorted; [apply nms_sublist | apply sorted_desc_sorted].
Qed.

Lemma nms_separated (dets : list Detection) (t : Q) (m : Z) :
  separated t (nms dets t m).
Proof.
  destruct dets as [| d ds]; [constructor |].
  apply nms_loop_separated. constructor.
Qed.

Lemma nms_length (dets : list Detection) (t : Q) (m : Z) :
  (1 <= m)%Z -> (Z.of_nat (length (nms dets t m)) <= m)%Z.
Proof.
  intros Hm. destruct dets as [| d ds]; [simpl; lia |].
  apply nms_loop_length. simpl. lia.
Qed.

(** Any two kept boxes, in either argument order, overlap by at most the
    threshold. *)
Lemma separated_lookup (t : Q) (l : list Detection) (i j : nat) (a b : Detection) :
  separated t l -> i <> j -> l !! i = Some a -> l !! j = Some b ->
  iou a b <= t.
Proof.
  unfold separated. intros Hsep. revert i j.
  induction Hsep as [| k ks Hk Hks IH]; intros i j Hij Ha Hb; [discriminate |].
  destruct i as [| i], j as [| j]; simpl in *; try congruence.
  - injection Ha as ->. rewrite iou_sym.
    rewrite Forall_forall in Hk. apply Hk. eapply list_elem_of_lookup_2, Hb.
  - injection Hb as ->.
    rewrite Forall_forall in Hk. apply Hk. eapply list_elem_of_lookup_2, Ha.
  - apply (IH i j); [congruence | assumption | assumption].
Qed.

(** With [max_det] at least 1 the output is a subsequence of the stably
    sorted input, no longer than [max_det], and any two kept boxes overlap
    by at most the threshold. *)
Lemma nms_spec (dets : list Detection) (t : Q) (m : Z) :
  (1 <= m)%Z ->
  nms dets t m `sublist_of` sorted_desc dets /\
  sorted_desc dets ≡ₚ dets /\
  sorted_by_score (sorted_desc dets) /\
  (forall s, filter (fun e => score e == s) (sorted_desc dets)
             = filter (fun e => score e == s) dets) /\
  (Z.of_nat (length (nms dets t m)) <= m)%Z /\
  (forall i j a b, i <> j -> nms dets t m !! i = Some a ->
                   nms dets t m !! j = Some b -> iou a b <= t).
Proof.
  intros Hm. repeat split.
  - apply nms_sublist.
  - apply sorted_desc_perm.
  - apply sorted_desc_sorted.
  - intros s. apply sorted_desc_stable.
  - apply nms_length, Hm.
  - intros i j a b. apply separated_lookup, nms_separated.
Qed.

(** The specification's scenario of two overlapping boxes (IoU 0.6,
    scores 0.9 and 0.8, threshold 0.45), and a run with score ties and an
    early stop. *)
Example iou_scenario :
  iou (Sample.det (9 # 10) 0 0 1 1) (Sample.det (8 # 10) 0 0 (6 # 10) 1) == 6 # 10.
Proof. vm_compute. reflexivity. Qed.

Example nms_two_overlapping :
  nms [Sample.det (8 # 10) 0 0 (6 # 10) 1; Sample.det (9 # 10) 0 0 1 1]
      (45 # 100) 50
  = [Sample.det (9 # 10) 0 0 1 1].
Proof. vm_compute. reflexivity. Qed.

Example nms_ties_keep_input_order :
  nms [Sample.det (1 # 2) 0 0 (1 # 4) (1 # 4);
       Sample.det (9 # 10) (1 # 2) (1 # 2) 1 1;
       Sample.det (1 # 2) (1 # 2) 0 1 (1 # 4);
       Sample.det (9 # 10) 0 (1 # 2) (1 # 4) 1] (45 # 100) 3
  = [Sample.det (9 # 10) (1 # 2) (1 # 2) 1 1;
     Sample.det (9 # 10) 0 (1 # 2) (1 # 4) 1;
     Sample.det (1 # 2) 0 0 (1 # 4) (1 # 4)].
Proof. vm_compute. reflexivity. Qed.

(** C2.  The bound [len(keep) <= max_det] fails when [max_det] is zero or
    negative: the length test follows the append, so the first candidate
    of a non-empty input is kept and returned alone. *)
Theorem nms_nonpositive_max_det (d : Detection) (ds : list Detection) (t : Q) (m : Z) :
  (m <= 0)%Z ->
  length (nms (d :: ds) t m) = 1%nat /\
  (m < Z.of_nat (length (nms (d :: ds) t m)))%Z.
Proof.
  intros Hm.
  assert (Hlen : length (nms (d :: ds) t m) = 1%nat).
  { destruct (sorted_desc_head (d :: ds)) as (top & rest & _ & _ & Hs & _);
      [congruence |].
    unfold nms. rewrite Hs. simpl.
    destruct (m <=? _)%Z eqn:Hle; [reflexivity |].
    apply Z.leb_gt in Hle. simpl in Hle. lia. }
  rewrite Hlen. split; [reflexivity | lia].
Qed.

Lemma nms_nonpositive_max_det_witness :
  length (nms [Sample.det (9 # 10) 0 0 1 1] (45 # 100) 0) = 1%nat /\
  (0 < Z.of_nat (length (nms [Sample.det (9 # 10) 0 0 1 1] (45 # 100) 0)))%Z.
Proof. apply (nms_nonpositive_max_det _ [] (45 # 100) 0). lia. Defined.

(** C9.  Greedy NMS is idempotent: run on its own output with the same
    threshold and the same [max_det], it returns that output. *)
Theorem nms_idempotent (dets : list Detection) (t : Q) (m : Z) :
  nms (nms dets t m) t m = nms dets t m.
Proof.
  pose proof (nms_sorted dets t m) as Hsorted.
  destruct dets as [| d ds]; [reflexivity |].
  unfold nms at 2 3. unfold nms in Hsorted.
  destruct (nms_loop_extends t m (sorted_desc (d :: ds)) []) as (r & Hr & _ & Hre).
  rewrite Hr in *. simpl in *.
  destruct r as [| x r]; [reflexivity |].
  unfold nms. rewrite (sorted_desc_id _ Hsorted). exact Hre.
Qed.

(** C10.  For a non-empty input and [max_det >= 1] the output is not empty
    and starts with the highest-scoring input detection, the first such in
    input order: every detection before it scores strictly less and every
    detection after it scores at most as much.  (The proof does not use the
    bound on [max_det]: the first candidate is kept before the length is
    tested.) *)
Theorem nms_keeps_top (dets : list Detection) (t : Q) (m : Z) :
  dets <> [] -> (1 <= m)%Z ->
  exists d rest pre post,
    nms dets t m = d :: rest /\ dets = pre ++ d :: post /\
    Forall (fun e => score e < score d) pre /\
    Forall (fun e => score e <= score d) post.
Proof.
  intros Hne _.
  destruct (sorted_desc_head dets Hne)
    as (d & rest & pre & post & Hs & Hl & Hpre & Hpost).
  destruct dets as [| a l]; [congruence |].
  unfold nms. rewrite Hs. simpl.
  destruct (m <=? _)%Z.
  - exists d, [], pre, post. auto.
  - destruct (nms_loop_extends t m rest [d]) as (r & Hr & _).
    exists d, r, pre, post. rewrite Hr. auto.
Qed.

(** ** Letterbox geometry *)

Lemma scaled_side_le (side model_size : Z) (s : Q) :
  (0 < side)%Z -> s <= inject_Z model_size / inject_Z side ->
  inject_Z side * s <= inject_Z model_size.
Proof.
  intros Hpos Hs.
  assert (Hq : 0 < inject_Z side) by (rewrite (Zlt_Qlt 0) in Hpos; exact Hpos).
  assert (Heq : inject_Z side * (inject_Z model_size / inject_Z side)
                == inject_Z model_size) by (field; lra).
  rewrite <- Heq. apply Qmult_le_l; assumption.
Qed.



(** ** The decoder's boxes *)

Lemma candidate_ok (lb : Letterbox) (th : Q) (cls : nat) (s x1 y1 x2 y2 : Q)
    (d : Detection) :
  candidate lb th cls s x1 y1 x2 y2 = Some d -> box_ok d.
Proof.
  unfold candidate.
  destruct (Py.ltb s th); [discriminate |].
  set (nx1 := clamp01 (x1 / _)). set (ny1 := clamp01 (y1 / _)).
  set (nx2 := clamp01 (x2 / _)). set (ny2 := clamp01 (y2 / _)).
  case_leb nx2 nx1; [discriminate |].
  case_leb ny2 ny1; [discriminate |].
  simpl. intros [= <-]. unfold box_ok. simpl.
  pose proof (clamp01_bounds (x1 / inject_Z (src_w lb))) as Hx1.
  pose proof (clamp01_bounds (y1 / inject_Z (src_h lb))) as Hy1.
  pose proof (clamp01_bounds (x2 / inject_Z (src_w lb))) as Hx2.
  pose proof (clamp01_bounds (y2 / inject_Z (src_h lb))) as Hy2.
  change (0 <= nx1 <= 1) in Hx1. change (0 <= ny1 <= 1) in Hy1.
  change (0 <= nx2 <= 1) in Hx2. change (0 <= ny2 <= 1) in Hy2.
  repeat split; lra.
Qed.

(** Inversion of a bind in [result]. *)
Lemma bind_ok {A C : Type} (m : result A) (k : A -> result C) (c : C) :
  m ≫= k = Ok c -> exists a, m = Ok a /\ k a = Ok c.
Proof. destruct m as [a | e]; [eauto | discriminate]. Qed.

Section DecoderFacts.

Context `{B : Backend}.

Lemma decode_rows_ok (lb : Letterbox) (th : Q) (num_classes : Z) (num_props : nat)
    (x : list (list Q)) (dets : list Detection) :
  decode_rows lb th num_classes num_props x = Ok dets -> Forall box_ok dets.
Proof.
  unfold decode_rows.
  destruct (concat _) as [| v vs]; [discriminate |].
  intros H.
  repeat (apply bind_ok in H as (? & _ & H)).
  injection H as <-.
  apply Forall_forall. intros d Hd.
  apply list_elem_of_omap in Hd as (i & _ & Hd).
  eapply candidate_ok, Hd.
Qed.

Lemma nms_ok (dets : list Detection) (t : Q) (m : Z) :
  Forall box_ok dets -> Forall box_ok (nms dets t m).
Proof.
  intros H. rewrite Forall_forall in *. intros d Hd. apply H.
  rewrite <- (sorted_desc_perm dets).
  eapply elem_of_sublist; [exact Hd | apply nms_sublist].
Qed.

(** Inversion of a bind in the handler monad. *)
Lemma mbind_ok {A C : Type} (m : M A) (k : A -> M C) (t t' : nat) (c : C) :
  (m ≫= k) t = (Ok c, t') ->
  exists a t1, m t = (Ok a, t1) /\ k a t1 = (Ok c, t').
Proof.
  unfold mbind, M_bind. destruct (m t) as [[a | e] t1]; [eauto | discriminate].
Qed.

Lemma lift_ok {A : Type} (r : result A) (t t1 : nat) (a : A) :
  lift r t = (Ok a, t1) -> r = Ok a /\ t1 = t.
Proof. unfold lift. intros [= -> ->]. auto. Qed.

Lemma process_frame_ok (frame_id : Z) (capture_ts recv_ts : Q) (image : pyval)
    (t t' : nat) (r : response) :
  (forall outputs lb th dets,
     decode_yolov8 outputs lb th = Ok dets -> Forall box_ok dets) ->
  process_frame frame_id capture_ts recv_ts image t = (Ok r, t') -> response_ok r.
Proof.
  unfold process_frame. intros Hdecode H.
  apply mbind_ok in H as (img & t1 & _ & H).
  apply mbind_ok in H as ([arr lb] & t2 & _ & H).
  apply mbind_ok in H as (name & t3 & _ & H).
  apply mbind_ok in H as (t0 & t4 & _ & H).
  apply mbind_ok in H as (outputs & t5 & _ & H).
  apply mbind_ok in H as (tm1 & t6 & _ & H).
  apply mbind_ok in H as (dets & t7 & Hdec & H).
  apply lift_ok in Hdec as [Hdec _].
  injection H as <- _. simpl.
  apply nms_ok. eapply Hdecode, Hdec.
Qed.

Lemma handle_message_ok (msg : pyval) (t t' : nat) (r : response) :
  (forall outputs lb th dets,
     decode_yolov8 outputs lb th = Ok dets -> Forall box_ok dets) ->
  handle_message msg t = (Ok r, t') -> response_ok r.
Proof.
  unfold handle_message. intros Hdecode H.
  apply mbind_ok in H as (frame_id & t1 & _ & H).
  apply mbind_ok in H as (capture_ts & t2 & _ & H).
  apply mbind_ok in H as (image & t3 & _ & H).
  destruct (negb (truthy image)).
  - injection H as <- _. exact I.
  - apply mbind_ok in H as (recv_ts & t4 & _ & H).
    unfold try_except in H.
    destruct (process_frame _ _ _ _ _) as [[r' | e] t5] eqn:Hp.
    + injection H as <- _. eapply process_frame_ok; [exact Hdecode | exact Hp].
    + injection H as <- _. exact I.
Qed.

(** C1.  Every detection the decoder returns has its box inside the unit
    square with [xmin < xmax] and [ymin < ymax]; so has every detection of
    every frame result the session loop sends. *)
Theorem detections_normalized :
  (forall outputs lb score_thresh dets,
     decode_yolov8 outputs lb score_thresh = Ok dets -> Forall box_ok dets) /\
  (forall inbound t, Forall response_ok (detect_ws inbound t).1).
Proof.
  assert (Hdecode : forall outputs lb score_thresh dets,
             decode_yolov8 outputs lb score_thresh = Ok dets ->
             Forall box_ok dets).
  { intros outputs lb th dets H. unfold decode_yolov8 in H.
    apply bind_ok in H as (out & _ & H).
    destruct (shape out) as [| d0 [| d1 [| d2 [| ? ?]]]];
      try (injection H as <-; constructor).
    destruct (_ || _); [| injection H as <-; constructor].
    apply bind_ok in H as ([[nc np] x] & _ & H).
    eapply decode_rows_ok, H. }
  split; [exact Hdecode |].
  intros inbound. induction inbound as [| ev rest IH]; intros t; simpl;
    [constructor |].
  destruct ev as [msg | |]; [| apply IH | constructor].
  destruct (handle_message msg t) as [[r | e] t1] eqn:Hm; [| constructor].
  specialize (IH t1). destruct (detect_ws rest t1) as [sent o]. simpl in *.
  constructor; [| exact IH].
  eapply handle_message_ok; [exact Hdecode | exact Hm].
Qed.

End DecoderFacts.

Lemma detections_normalized_witness :
  decode_yolov8 (B := Sample.backend Sample.one_box)
    [("output0", Sample.one_box)]
    {| dx := 0; dy := 0; draw_w := 320; draw_h := 320;
       model := 320; src_w := 320; src_h := 320 |} (25 # 100)
  = Ok [{| label := 0; score := 9 # 10;
           xmin := 70400 # 204800; ymin := 70400 # 204800;
           xmax := 134400 # 204800; ymax := 134400 # 204800 |}] /\
  Forall box_ok [{| label := 0; score := 9 # 10;
                    xmin := 70400 # 204800; ymin := 70400 # 204800;
                    xmax := 134400 # 204800; ymax := 134400 # 204800 |}].
Proof.
  split; [vm_compute; reflexivity |].
  apply (proj1 (detections_normalized (B := Sample.backend Sample.one_box))
           [("output0", Sample.one_box)]
           {| dx := 0; dy := 0; draw_w := 320; draw_h := 320;
              model := 320; src_w := 320; src_h := 320 |} (25 # 100)).
  vm_compute. reflexivity.
Defined.

Lemma nms_keeps_top_witness :
  exists d rest pre post,
    nms [Sample.det (8 # 10) 0 0 (1 # 2) (1 # 2);
         Sample.det (9 # 10) 0 0 (1 # 2) (6 # 10);
         Sample.det (9 # 10) (1 # 2) 0 1 1] (45 # 100) 50 = d :: rest /\
    [Sample.det (8 # 10) 0 0 (1 # 2) (1 # 2);
     Sample.det (9 # 10) 0 0 (1 # 2) (6 # 10);
     Sample.det (9 # 10) (1 # 2) 0 1 1] = pre ++ d :: post /\
    Forall (fun e => score e < score d) pre /\
    Forall (fun e => score e <= score d) post.
Proof. apply nms_keeps_top; [discriminate | lia]. Defined.

(** ** Layout of the raw output *)

(** Row [j] of the transpose is column [j] of the matrix. *)
Lemma transpose_lookup (c : nat) (m : list (list Q)) (j : nat) :
  (j < c)%nat -> transpose c m !! j = Some (column j m).
Proof.
  intros Hj. unfold transpose, column.
  rewrite list_lookup_fmap, lookup_seq_lt by exact Hj. reflexivity.
Qed.

Lemma choose_layout_channel_first (d1 d2 : nat) :
  choose_layout d1 d2 = ChannelFirst <-> (6 <= d1 /\ d1 < d2)%nat.
Proof.
  unfold choose_layout.
  destruct (Nat.leb_spec 6 d1), (Nat.ltb_spec d1 d2); simpl;
    split; try discriminate; try lia; auto.
Qed.

(** C3, as the code has it.  The output is read as channel-first exactly
    when the first non-batch dimension is at least 6 and strictly smaller
    than the second; in every other case, equal dimensions included, it is
    read as box-first and transposed. *)
Theorem layout_rule (out : ndarray) (d0 d1 d2 : nat) :
  (choose_layout d1 d2 = ChannelFirst <-> (6 <= d1 /\ d1 < d2)%nat) /\
  (choose_layout d1 d2 = BoxFirst <-> ~ (6 <= d1 /\ d1 < d2)%nat) /\
  choose_layout d1 d1 = BoxFirst /\
  channel_first out (S d0) d1 d2
  = Ok match choose_layout d1 d2 with
       | ChannelFirst =>
           ((Z.of_nat d1 - 4)%Z, d2, rows_of d1 d2 (data out))
       | BoxFirst =>
           ((Z.of_nat d2 - 4)%Z, d1, transpose d2 (rows_of d1 d2 (data out)))
       end.
Proof.
  pose proof (choose_layout_channel_first d1 d2) as Hcf.
  pose proof (choose_layout_channel_first d1 d1) as Heq.
  split; [exact Hcf |]. split; [| split].
  - split.
    + intros Hb Hc. apply Hcf in Hc. congruence.
    + intros Hn. destruct (choose_layout d1 d2); [tauto | reflexivity].
  - destruct (choose_layout d1 d1); [| reflexivity].
    destruct Heq as [Heq _]. specialize (Heq eq_refl). lia.
  - unfold channel_first. simpl. destruct (choose_layout d1 d2); reflexivity.
Qed.

(** C3 as stated fails on equal dimensions: a (1, 6, 6) output is read as
    box-first, and the matrix the decoder works on is the transpose of the
    one a channel-first reading gives. *)
Lemma layout_equal_dims_counterexample :
  layout_as_specified 6 6 = ChannelFirst /\
  choose_layout 6 6 = BoxFirst /\
  channel_first Sample.square 1 6 6
  = Ok (2%Z, 6%nat, transpose 6 (rows_of 6 6 (data Sample.square))) /\
  transpose 6 (rows_of 6 6 (data Sample.square))
  <> rows_of 6 6 (data Sample.square).
Proof.
  repeat split; try reflexivity.
  intros H. vm_compute in H. discriminate H.
Qed.

(** ** Unexpected output shapes *)

Section ShapeFacts.

Context `{B : Backend}.

(** An array that fails the guard of line 100 decodes to no detections. *)
Lemma decode_unexpected_shape (outputs : list (string * ndarray)) (out : ndarray)
    (lb : Letterbox) (th : Q) :
  first_output outputs = Ok out -> expected_shape (shape out) = false ->
  decode_yolov8 outputs lb th = Ok [].
Proof.
  intros Hout Hshape. unfold decode_yolov8. rewrite Hout.
  cbn [mbind result_bind]. unfold expected_shape in Hshape.
  destruct (shape out) as [| d0 [| d1 [| d2 [| ? ?]]]]; try reflexivity.
  rewrite Hshape. reflexivity.
Qed.

(** C6, as the code has it.  When the frame's image decodes and is
    letterboxed, the session runs, and the first output has an unexpected
    shape (not rank 3, or neither non-batch dimension at least 6), the
    decoder returns no detections and the frame is answered with a
    successful frame result whose detection list is empty. *)
Theorem unexpected_shape_empty_result (frame_id : Z) (capture_ts recv_ts : Q)
    (image : pyval) (img : Image) (arr : Tensor) (lb : Letterbox) (name : string)
    (outputs : list (string * ndarray)) (out : ndarray) (t : nat) :
  decode_image_from_b64 image = Ok img ->
  preprocess_letterbox img MODEL_INPUT_SIZE = Ok (arr, lb) ->
  session_input_name = Ok name ->
  session_run name arr = Ok outputs ->
  first_output outputs = Ok out ->
  expected_shape (shape out) = false ->
  decode_yolov8 outputs lb (25 # 100) = Ok [] /\
  process_frame frame_id capture_ts recv_ts image t
  = (Ok (FrameResult frame_id capture_ts recv_ts
           (perf_counter (S t) * 1000)
           (perf_counter (S t) * 1000 - perf_counter t * 1000) []),
     S (S t)).
Proof.
  intros Himg Hlb Hname Hrun Hout Hshape.
  pose proof (decode_unexpected_shape outputs out lb (25 # 100) Hout Hshape) as Hdec.
  split; [exact Hdec |].
  unfold process_frame, mbind, M_bind, lift, now_ms.
  rewrite Himg, Hlb, Hname, Hrun, Hdec. reflexivity.
Qed.

End ShapeFacts.

Lemma unexpected_shape_empty_result_witness :
  decode_yolov8 (B := Sample.backend Sample.rank2)
    [("output0", Sample.rank2)]
    {| dx := 0; dy := 0; draw_w := 320; draw_h := 320;
       model := 320; src_w := 320; src_h := 320 |} (25 # 100) = Ok [] /\
  process_frame (B := Sample.backend Sample.rank2) 1 7 0 (VStr "320x320") 0%nat
  = (Ok (FrameResult 1 7 0 (inject_Z 1 * 1000)
           (inject_Z 1 * 1000 - inject_Z 0 * 1000) []), 2%nat).
Proof.
  apply (unexpected_shape_empty_result (B := Sample.backend Sample.rank2)
           1 7 0 (VStr "320x320") (320, 320)%Z (320, 320)%Z
           {| dx := 0; dy := 0; draw_w := 320; draw_h := 320;
              model := 320; src_w := 320; src_h := 320 |}
           "images" [("output0", Sample.rank2)] Sample.rank2 0%nat);
    vm_compute; reflexivity.
Defined.

(** C6 as stated fails: with an output of rank 2 the frame is answered
    with a frame result, not with an error. *)
Lemma unexpected_shape_counterexample :
  expected_shape (shape Sample.rank2) = false /\
  exists r,
    detect_ws (B := Sample.backend Sample.rank2)
      [Received (Sample.frame 1 "320x320")] 0%nat = ([r], Receiving) /\
    r = FrameResult 1 7 0 2000 1000 [] /\
    is_error r = false.
Proof.
  split; [reflexivity |].
  eexists. split; [vm_compute; reflexivity |].
  split; reflexivity.
Qed.

(** ** The session loop *)

Section SessionFacts.

Context `{B : Backend}.

(** A failing conversion of [frame_id] or [capture_ts] is raised by the
    handler of the message: it stands before the [try]. *)
Lemma envelope_error_raised (msg : pyval) (t : nat) (e : exn) :
  frame_id_of msg = Raise e \/
  (is_ok (frame_id_of msg) = true /\ capture_ts_of msg = Raise e) ->
  handle_message msg t = (Raise e, t).
Proof.
  unfold handle_message, mbind at 1 2, M_bind, lift.
  intros [Hf | [Hf Hc]].
  - rewrite Hf. reflexivity.
  - destruct (frame_id_of msg) as [f | ?]; [| discriminate].
    rewrite Hc. reflexivity.
Qed.

(** Past the two conversions nothing is raised: whatever fails in the
    [try] block is answered with a frame error. *)
Lemma handle_message_returns (msg : pyval) (t : nat) (f : Z) (c : Q) :
  frame_id_of msg = Ok f -> capture_ts_of msg = Ok c ->
  exists r t', handle_message msg t = (Ok r, t').
Proof.
  intros Hf Hc. unfold handle_message, mbind at 1 2 3, M_bind, lift.
  rewrite Hf, Hc.
  destruct msg as [| | | | | | m]; try discriminate. simpl.
  destruct (negb (truthy _)); [eexists _, _; reflexivity |].
  unfold mbind, M_bind, now_ms, try_except.
  destruct (process_frame _ _ _ _ _) as [[r | e] t1]; eexists _, _; reflexivity.
Qed.

(** A failure inside the [try] block is answered with the frame's id and
    the exception. *)
Lemma frame_failure_answered (msg image : pyval) (t t' : nat) (f : Z) (c : Q)
    (e : exn) :
  frame_id_of msg = Ok f -> capture_ts_of msg = Ok c ->
  py_get msg "image_b64" VNone = Ok image -> truthy image = true ->
  process_frame f c (perf_counter t * 1000) image (S t) = (Raise e, t') ->
  handle_message msg t = (Ok (FrameError f e), t').
Proof.
  intros Hf Hc Hget Htrue Hp.
  unfold handle_message, mbind, M_bind, lift, now_ms, try_except.
  rewrite Hf, Hc, Hget, Htrue. simpl.
  unfold mbind, M_bind in Hp. rewrite Hp. reflexivity.
Qed.

Lemma detect_ws_raise (msg : pyval) (rest : list recv) (t t' : nat) (e : exn) :
  handle_message msg t = (Raise e, t') ->
  detect_ws (Received msg :: rest) t = ([], Propagated e).
Proof. intros H. simpl. rewrite H. reflexivity. Qed.

(** C5.  A frame message whose [frame_id] or [capture_ts] does not convert
    ends the session loop: the exception leaves [detect_ws], no response is
    sent for the frame, and the frames after it are not read. *)
Theorem envelope_failure_ends_session (msg : pyval) (rest : list recv)
    (t : nat) (e : exn) :
  frame_id_of msg = Raise e \/
  (is_ok (frame_id_of msg) = true /\ capture_ts_of msg = Raise e) ->
  detect_ws (Received msg :: rest) t = ([], Propagated e).
Proof.
  intros H. eapply detect_ws_raise, envelope_error_raised, H.
Qed.

(** C8.  A dict message without [image_b64] is answered with the error
    "missing image_b64" and the loop goes on with the next message, as long
    as its [frame_id] and [capture_ts] convert; when one of them does not
    convert, the same message ends the loop unanswered. *)
Theorem missing_image_reply (m : gmap string pyval) (rest : list recv) (t : nat) :
  m !! "image_b64" = None ->
  (forall f c, frame_id_of (VDict m) = Ok f -> capture_ts_of (VDict m) = Ok c ->
     detect_ws (Received (VDict m) :: rest) t
     = (ErrorOnly "missing image_b64" :: (detect_ws rest t).1,
        (detect_ws rest t).2)) /\
  (forall e,
     frame_id_of (VDict m) = Raise e \/
     (is_ok (frame_id_of (VDict m)) = true /\ capture_ts_of (VDict m) = Raise e) ->
     detect_ws (Received (VDict m) :: rest) t = ([], Propagated e)).
Proof.
  intros Himg. split.
  - intros f c Hf Hc. simpl.
    unfold handle_message, mbind at 1 2 3, M_bind, lift.
    rewrite Hf, Hc. simpl. rewrite Himg. simpl.
    destruct (detect_ws rest t). reflexivity.
  - intros e H. eapply detect_ws_raise, envelope_error_raised, H.
Qed.

End SessionFacts.

(** A session on the sample backend: a frame with a detection, a receive
    error that is skipped, an undecodable image, a message without image,
    and a disconnect, after which nothing is read. *)
Example session_scenario :
  detect_ws (B := Sample.backend Sample.one_box)
    [Received (Sample.frame 1 "320x320");
     RecvError;
     Received (Sample.frame 2 "not an image");
     Received (VDict (<["frame_id" := VInt 3]> ∅));
     Disconnected;
     Received (Sample.frame 4 "320x320")] 0%nat
  = ([FrameResult 1 7 0 2000 1000
        [{| label := 0; score := 9 # 10;
            xmin := 70400 # 204800; ymin := 70400 # 204800;
            xmax := 134400 # 204800; ymax := 134400 # 204800 |}];
      FrameError 2 (Foreign "cannot identify image file");
      ErrorOnly "missing image_b64"],
     Returned).
Proof. vm_compute. reflexivity. Qed.

Lemma envelope_failure_ends_session_witness :
  detect_ws (B := Sample.backend Sample.one_box)
    [Received (VDict (<["frame_id" := VNone]>
                      (<["image_b64" := VStr "320x320"]> ∅)));
     Received (Sample.frame 2 "320x320")] 0%nat
  = ([], Propagated TypeError).
Proof.
  apply (envelope_failure_ends_session (B := Sample.backend Sample.one_box)).
  left. vm_compute. reflexivity.
Defined.

Lemma missing_image_reply_witness :
  detect_ws (B := Sample.backend Sample.one_box)
    [Received (VDict (<["frame_id" := VInt 3]> ∅)); Disconnected] 0%nat
  = ([ErrorOnly "missing image_b64"], Returned) /\
  detect_ws (B := Sample.backend Sample.one_box)
    [Received (VDict (<["frame_id" := VNone]> ∅));
     Received (Sample.frame 2 "320x320")] 0%nat
  = ([], Propagated TypeError).
Proof.
  split.
  - refine (proj1 (missing_image_reply (B := Sample.backend Sample.one_box)
                     (<["frame_id" := VInt 3]> ∅) [Disconnected] 0%nat _)
                  3%Z 0 _ _); vm_compute; reflexivity.
  - refine (proj2 (missing_image_reply (B := Sample.backend Sample.one_box)
                     (<["frame_id" := VNone]> ∅)
                     [Received (Sample.frame 2 "320x320")] 0%nat _)
                  TypeError _); [| left]; vm_compute; reflexivity.
Defined.

(** ** Failures of the letterbox transform *)

(** The geometry fails exactly on a zero width or height, with the
    [ZeroDivisionError] of the scale division. *)
Lemma letterbox_geometry_raises (W H model_size : Z) (e : exn) :
  letterbox_geometry (W, H) model_size = Raise e
  <-> (W = 0 \/ H = 0)%Z /\ e = ZeroDivisionError.
Proof.
  unfold letterbox_geometry, truediv.
  destruct (Z.eqb_spec W 0) as [-> | HW]; cbn [mbind result_bind].
  - split; [intros [= <-]; auto | intros [_ ->]; reflexivity].
  - destruct (Z.eqb_spec H 0) as [-> | HH]; cbn [mbind result_bind].
    + split; [intros [= <-]; auto | intros [_ ->]; reflexivity].
    + split; [discriminate | intros [[? | ?] _]; contradiction].
Qed.

Section LetterboxFacts.

Context `{B : Backend}.

(** On a zero-sized image the transform raises before any imaging call. *)
Lemma preprocess_letterbox_zero_size (img : Image) (model_size : Z) :
  ((image_size img).1 = 0 \/ (image_size img).2 = 0)%Z ->
  preprocess_letterbox img model_size = Raise ZeroDivisionError.
Proof.
  intros Hz. unfold preprocess_letterbox.
  destruct (image_size img) as [W H] eqn:Hsize. simpl in Hz.
  assert (Hg : letterbox_geometry (W, H) model_size = Raise ZeroDivisionError)
    by (apply letterbox_geometry_raises; auto).
  rewrite Hg. reflexivity.
Qed.

(** C7.  A 640x1 image is not zero-sized, yet at model size 320 its drawn
    height rounds to 0: the transform asks the imaging library for a
    320x0 resize, and what that call raises is what the transform
    raises. *)
Theorem letterbox_zero_target (img canvas : Image) (e : exn) :
  image_size img = (640, 1)%Z ->
  image_new 320 = Ok canvas ->
  image_resize img (320, 0)%Z = Raise e ->
  letterbox_geometry (image_size img) 320
  = Ok {| dx := 0; dy := 160; draw_w := 320; draw_h := 0;
          model := 320; src_w := 640; src_h := 1 |} /\
  preprocess_letterbox img 320 = Raise e.
Proof.
  intros Hsize Hnew Hresize.
  assert (Hg : letterbox_geometry (image_size img) 320
               = Ok {| dx := 0; dy := 160; draw_w := 320; draw_h := 0;
                       model := 320; src_w := 640; src_h := 1 |})
    by (rewrite Hsize; vm_compute; reflexivity).
  split; [exact Hg |].
  unfold preprocess_letterbox. rewrite Hg. cbn [mbind result_bind].
  rewrite Hnew. cbn [mbind result_bind draw_w draw_h].
  rewrite Hresize. reflexivity.
Qed.

End LetterboxFacts.

Lemma letterbox_zero_target_witness :
  letterbox_geometry (640, 1)%Z 320
  = Ok {| dx := 0; dy := 160; draw_w := 320; draw_h := 0;
          model := 320; src_w := 640; src_h := 1 |} /\
  preprocess_letterbox (B := Sample.backend Sample.one_box) (640, 1)%Z 320
  = Raise ValueError.
Proof.
  apply (letterbox_zero_target (B := Sample.backend Sample.one_box)
           (640, 1)%Z (320, 320)%Z ValueError);
    vm_compute; reflexivity.
Defined.

(** * Further properties *)

(** ** Intersection over union, continued *)

(** The clamped extents of [iou]: each is non-negative, and the extent of
    the intersection is at most that of either box. *)
Lemma overlap_extent (lo1 hi1 lo2 hi2 : Q) :
  0 <= Py.max 0 (Py.min hi1 hi2 - Py.max lo1 lo2) /\
  Py.max 0 (Py.min hi1 hi2 - Py.max lo1 lo2) <= Py.max 0 (hi1 - lo1) /\
  Py.max 0 (Py.min hi1 hi2 - Py.max lo1 lo2) <= Py.max 0 (hi2 - lo2).
Proof.
  unfold Py.max, Py.min.
  case_ltb hi2 hi1; case_ltb lo1 lo2;
    repeat match goal with
           | |- context [Py.ltb ?a ?b] => case_ltb a b
           end; repeat split; lra.
Qed.

Lemma iou_range (a b : Detection) : 0 <= iou a b <= 1.
Proof.
  destruct (overlap_extent (xmin a) (xmax a) (xmin b) (xmax b)) as (Hw0 & Hwa & Hwb).
  destruct (overlap_extent (ymin a) (ymax a) (ymin b) (ymax b)) as (Hh0 & Hha & Hhb).
  unfold iou.
  set (iw := Py.max 0 (Py.min (xmax a) (xmax b) - Py.max (xmin a) (xmin b))) in *.
  set (ih := Py.max 0 (Py.min (ymax a) (ymax b) - Py.max (ymin a) (ymin b))) in *.
  set (wa := Py.max 0 (xmax a - xmin a)) in *.
  set (ha := Py.max 0 (ymax a - ymin a)) in *.
  set (wb := Py.max 0 (xmax b - xmin b)) in *.
  set (hb := Py.max 0 (ymax b - ymin b)) in *.
  assert (Hi : 0 <= iw * ih) by (apply Qmult_le_0_compat; assumption).
  assert (Ha : iw * ih <= wa * ha) by (apply Qmult_le_compat_nonneg; split; assumption).
  assert (Hb : iw * ih <= wb * hb) by (apply Qmult_le_compat_nonneg; split; assumption).
  case_leb (wa * ha + wb * hb - iw * ih) 0; [lra |].
  split.
  - apply Qle_shift_div_l; [exact Hcmp | lra].
  - apply Qle_shift_div_r; [exact Hcmp | lra].
Qed.

(** X1.  [iou] is symmetric in its two boxes and its value lies between 0
    and 1, for any coordinates. *)
Theorem iou_symmetric_bounded (a b : Detection) :
  iou a b == iou b a /\ 0 <= iou a b <= 1.
Proof. split; [apply iou_sym | apply iou_range]. Qed.

Lemma max0_pos (v : Q) : 0 < v -> Py.max 0 v = v.
Proof. intros Hv. unfold Py.max. case_ltb 0 v; [reflexivity | lra]. Qed.

Lemma max0_nonpos (v : Q) : v <= 0 -> Py.max 0 v = 0.
Proof. intros Hv. unfold Py.max. case_ltb 0 v; [lra | reflexivity]. Qed.

Lemma min_idem (v : Q) : Py.min v v = v.
Proof. unfold Py.min. destruct (Py.ltb v v); reflexivity. Qed.

Lemma max_idem (v : Q) : Py.max v v = v.
Proof. unfold Py.max. destruct (Py.ltb v v); reflexivity. Qed.

(** X2.  A box of positive width and height has IoU 1 with itself, and two
    boxes that do not overlap along the x axis or along the y axis have
    IoU 0. *)
Theorem iou_self_and_disjoint (a b : Detection) :
  (xmin a < xmax a -> ymin a < ymax a -> iou a a == 1) /\
  (xmax a <= xmin b \/ xmax b <= xmin a \/
   ymax a <= ymin b \/ ymax b <= ymin a -> iou a b == 0).
Proof.
  split.
  - intros Hx Hy. unfold iou.
    rewrite !min_idem, !max_idem, !max0_pos by lra.
    assert (Hpos : 0 < (xmax a - xmin a) * (ymax a - ymin a))
      by (apply Qmult_lt_0_compat; lra).
    case_leb ((xmax a - xmin a) * (ymax a - ymin a)
              + (xmax a - xmin a) * (ymax a - ymin a)
              - (xmax a - xmin a) * (ymax a - ymin a)) 0; [lra |].
    field. lra.
  - intros Hd. unfold iou.
    set (iw := Py.max 0 (Py.min (xmax a) (xmax b) - Py.max (xmin a) (xmin b))).
    set (ih := Py.max 0 (Py.min (ymax a) (ymax b) - Py.max (ymin a) (ymin b))).
    set (u := _ + _ - _).
    destruct (Py.leb u 0) eqn:Hu; [reflexivity |].
    apply leb_gt in Hu.
    assert (Hz : iw * ih == 0).
    { destruct (min_spec (xmax a) (xmax b)) as (? & ? & _).
      destruct (max_spec (xmin a) (xmin b)) as (? & ? & _).
      destruct (min_spec (ymax a) (ymax b)) as (? & ? & _).
      destruct (max_spec (ymin a) (ymin b)) as (? & ? & _).
      destruct Hd as [Hd | [Hd | [Hd | Hd]]].
      - unfold iw. rewrite max0_nonpos by lra. ring.
      - unfold iw. rewrite max0_nonpos by lra. ring.
      - unfold ih. rewrite max0_nonpos by lra. ring.
      - unfold ih. rewrite max0_nonpos by lra. ring. }
    rewrite Hz. field. lra.
Qed.

Lemma iou_self_and_disjoint_witness :
  iou (Sample.det (9 # 10) 0 0 (1 # 2) (1 # 2))
      (Sample.det (9 # 10) 0 0 (1 # 2) (1 # 2)) == 1 /\
  iou (Sample.det (9 # 10) 0 0 (1 # 2) (1 # 2))
      (Sample.det (8 # 10) (1 # 2) 0 1 1) == 0.
Proof.
  split.
  - apply (proj1 (iou_self_and_disjoint (Sample.det (9 # 10) 0 0 (1 # 2) (1 # 2))
                    (Sample.det (9 # 10) 0 0 (1 # 2) (1 # 2))));
      vm_compute; reflexivity.
  - apply (proj2 (iou_self_and_disjoint (Sample.det (9 # 10) 0 0 (1 # 2) (1 # 2))
                    (Sample.det (8 # 10) (1 # 2) 0 1 1))).
    left. vm_compute. discriminate.
Defined.

(** ** Greedy NMS, continued *)

(** X3.  Whatever the threshold and [max_det], the output of [nms]
    consists of input detections only: it is a subsequence of the input in
    stable descending score order, itself in descending score order, and
    uses no input detection more often than the input has it. *)
Theorem nms_selects_from_input (dets : list Detection) (t : Q) (m : Z) :
  nms dets t m `sublist_of` sorted_desc dets /\
  sorted_by_score (nms dets t m) /\
  nms dets t m ⊆+ dets /\
  (forall d, d ∈ nms dets t m -> d ∈ dets) /\
  (length (nms dets t m) <= length dets)%nat.
Proof.
  assert (Hsub : nms dets t m `sublist_of` sorted_desc dets).
  { destruct dets as [| d ds]; [constructor |].
    unfold nms.
    destruct (nms_loop_extends t m (sorted_desc (d :: ds)) [])
      as (r & Hr & Hsub & _).
    rewrite Hr. exact Hsub. }
  assert (Hms : nms dets t m ⊆+ dets).
  { transitivity (sorted_desc dets); [apply sublist_submseteq, Hsub |].
    apply Permutation_submseteq, sorted_desc_perm. }
  repeat apply conj.
  - exact Hsub.
  - eapply sublist_sorted; [exact Hsub | apply sorted_desc_sorted].
  - exact Hms.
  - intros d Hd. eapply elem_of_submseteq; eassumption.
  - apply submseteq_length, Hms.
Qed.



(** X5.  [nms] returns at most [max_det] detections when [max_det] is at
    least 1, and at most one detection when [max_det] is below 1. *)
Theorem nms_length_bound (dets : list Detection) (t : Q) (m : Z) :
  (Z.of_nat (length (nms dets t m)) <= Z.max 1 m)%Z.
Proof.
  destruct dets as [| d ds]; [simpl; lia |].
  destruct (Z.le_gt_cases 1 m) as [Hm | Hm].
  - rewrite Z.max_r by exact Hm.
    apply nms_loop_length. simpl. lia.
  - rewrite Z.max_l by lia.
    destruct (sorted_desc_head (d :: ds)) as (top & rest & _ & _ & Hs & _);
      [congruence |].
    unfold nms. rewrite Hs. simpl.
    destruct (m <=? _)%Z eqn:Hle; [simpl; lia |].
    apply Z.leb_gt in Hle. simpl in Hle. lia.
Qed.

(** While the cap is not reached, a candidate that the loop does not keep
    overlaps, by more than the threshold, a kept detection that was kept
    before the loop started or stands before the candidate. *)
Lemma nms_loop_complete (t : Q) (m : Z) (ds keep : list Detection) :
  (Z.of_nat (length (nms_loop t m keep ds)) < m)%Z ->
  forall d, d ∈ ds ->
    d ∈ nms_loop t m keep ds \/
    exists k, k ∈ nms_loop t m keep ds /\ t < iou d k /\
              (k ∈ keep \/ exists pre post, ds = pre ++ k :: post /\ d ∈ post).
Proof.
  revert keep. induction ds as [| c ds IH]; intros keep Hlen d Hd;
    [inversion Hd |].
  simpl in *.
  destruct (suppressed t c keep) eqn:Hs.
  - destruct (nms_loop_extends t m ds keep) as (r & Hr & _ & _).
    apply elem_of_cons in Hd as [-> | Hd].
    + right. unfold suppressed in Hs.
      apply existsb_exists in Hs as (k & Hk & Hover).
      apply ltb_lt in Hover. apply list_elem_of_In in Hk.
      exists k. rewrite Hr. split; [apply elem_of_app; left; exact Hk |].
      split; [exact Hover | left; exact Hk].
    + destruct (IH keep Hlen d Hd) as [Hin | (k & Hres & Hover & Hpos)];
        [left; exact Hin |].
      right. exists k. split; [exact Hres |]. split; [exact Hover |].
      destruct Hpos as [Hpos | (pre & post & -> & Hpost)]; [left; exact Hpos |].
      right. exists (c :: pre), post. split; [reflexivity | exact Hpost].
  - destruct (m <=? Z.of_nat (length (keep ++ [c])))%Z eqn:Hcap.
    + apply Z.leb_le in Hcap. lia.
    + destruct (nms_loop_extends t m ds (keep ++ [c])) as (r & Hr & _ & _).
      apply elem_of_cons in Hd as [-> | Hd].
      * left. rewrite Hr, <- app_assoc. apply elem_of_app. right. left.
      * destruct (IH (keep ++ [c]) Hlen d Hd)
          as [Hin | (k & Hres & Hover & Hpos)]; [left; exact Hin |].
        right. exists k. split; [exact Hres |]. split; [exact Hover |].
        destruct Hpos as [Hpos | (pre & post & -> & Hpost)].
        -- apply elem_of_app in Hpos as [Hpos | Hpos]; [left; exact Hpos |].
           apply list_elem_of_singleton in Hpos as ->.
           right. exists [], ds. split; [reflexivity | exact Hd].
        -- right. exists (c :: pre), post. split; [reflexivity | exact Hpost].
Qed.



Lemma nms_loop_cap (t : Q) (m m' : Z) (ds keep : list Detection) :
  (Z.of_nat (length keep) < m)%Z -> (m <= m')%Z ->
  nms_loop t m keep ds = take (Z.to_nat m) (nms_loop t m' keep ds).
Proof.
  revert keep. induction ds as [| d ds IH]; intros keep Hk Hm; simpl.
  - rewrite take_ge by lia. reflexivity.
  - destruct (suppressed t d keep); [apply IH; assumption |].
    rewrite length_app. simpl.
    destruct (Z.leb_spec m (Z.of_nat (length keep + 1))) as [Hcap | Hcap].
    + assert (Hlen : Z.to_nat m = length (keep ++ [d]))
        by (rewrite length_app; simpl; lia).
      destruct (Z.leb_spec m' (Z.of_nat (length keep + 1))).
      * rewrite take_ge by lia. reflexivity.
      * destruct (nms_loop_extends t m' ds (keep ++ [d])) as (r & -> & _).
        rewrite Hlen, take_app_length. reflexivity.
    + destruct (Z.leb_spec m' (Z.of_nat (length keep + 1))); [lia |].
      apply IH; [rewrite length_app; simpl; lia | exact Hm].
Qed.

(** X7.  Lowering [max_det] only cuts the output short: for
    [1 <= max_det <= max_det'] the output with [max_det] is the first
    [max_det] detections of the output with [max_det']. *)
Theorem nms_cap_is_prefix (dets : list Detection) (t : Q) (m m' : Z) :
  (1 <= m)%Z -> (m <= m')%Z ->
  nms dets t m = take (Z.to_nat m) (nms dets t m').
Proof.
  intros H1 Hm. destruct dets as [| d ds]; [simpl; rewrite take_nil; reflexivity |].
  unfold nms. apply nms_loop_cap; [simpl; lia | exact Hm].
Qed.

Lemma nms_cap_is_prefix_witness :
  nms [Sample.det (8 # 10) 0 0 (1 # 2) (1 # 2);
       Sample.det (9 # 10) 0 0 (1 # 2) (6 # 10);
       Sample.det (7 # 10) (1 # 2) 0 1 1] (45 # 100) 1
  = take (Z.to_nat 1)
      (nms [Sample.det (8 # 10) 0 0 (1 # 2) (1 # 2);
            Sample.det (9 # 10) 0 0 (1 # 2) (6 # 10);
            Sample.det (7 # 10) (1 # 2) 0 1 1] (45 # 100) 50).
Proof. apply nms_cap_is_prefix; lia. Defined.

Lemma nms_loop_no_suppression (t : Q) (m : Z) (ds keep : list Detection) :
  1 <= t -> (Z.of_nat (length keep) < m)%Z ->
  nms_loop t m keep ds = take (Z.to_nat m) (keep ++ ds).
Proof.
  intros Ht. revert keep. induction ds as [| d ds IH]; intros keep Hk; simpl.
  - rewrite app_nil_r, take_ge by lia. reflexivity.
  - assert (Hs : suppressed t d keep = false).
    { apply suppressed_false, Forall_forall. intros k _.
      destruct (iou_range d k) as [_ Hle]. lra. }
    rewrite Hs, length_app. simpl.
    replace (keep ++ d :: ds) with ((keep ++ [d]) ++ ds)
      by (rewrite <- app_assoc; reflexivity).
    destruct (Z.leb_spec m (Z.of_nat (length keep + 1))) as [Hcap | Hcap].
    + assert (Hlen : Z.to_nat m = length (keep ++ [d]))
        by (rewrite length_app; simpl; lia).
      rewrite Hlen, take_app_length. reflexivity.
    + apply IH. rewrite length_app. simpl. lia.
Qed.

(** X8.  With a threshold of 1 or more nothing is suppressed: for
    [max_det >= 1] the output is the first [max_det] detections of the
    input in stable descending score order. *)
Theorem nms_threshold_one (dets : list Detection) (t : Q) (m : Z) :
  1 <= t -> (1 <= m)%Z ->
  nms dets t m = take (Z.to_nat m) (sorted_desc dets).
Proof.
  intros Ht Hm. destruct dets as [| d ds]; [simpl; rewrite take_nil; reflexivity |].
  unfold nms. rewrite (nms_loop_no_suppression t m _ []); [reflexivity | exact Ht |].
  simpl. lia.
Qed.

Lemma nms_threshold_one_witness :
  nms [Sample.det (8 # 10) 0 0 (6 # 10) 1; Sample.det (9 # 10) 0 0 1 1] 1 50
  = take (Z.to_nat 50)
      (sorted_desc [Sample.det (8 # 10) 0 0 (6 # 10) 1; Sample.det (9 # 10) 0 0 1 1]).
Proof. apply nms_threshold_one; [vm_compute; discriminate | lia]. Defined.

Lemma nms_loop_all_suppressed (t : Q) (m : Z) (ds keep : list Detection) :
  t < 0 -> keep <> [] -> nms_loop t m keep ds = keep.
Proof.
  intros Ht Hk. induction ds as [| d ds IH]; simpl; [reflexivity |].
  destruct keep as [| k ks]; [congruence |].
  assert (Hs : suppressed t d (k :: ks) = true).
  { unfold suppressed. simpl. apply orb_true_iff. left.
    apply ltb_lt. destruct (iou_range d k) as [Hge _]. lra. }
  rewrite Hs. exact IH.
Qed.

(** X9.  With a negative threshold every candidate after the first is
    suppressed: the output of a non-empty input is its top-scoring
    detection alone, for every [max_det]. *)
Theorem nms_negative_threshold (dets : list Detection) (t : Q) (m : Z) :
  t < 0 -> nms dets t m = take 1 (sorted_desc dets).
Proof.
  intros Ht. destruct dets as [| a l]; [reflexivity |].
  destruct (sorted_desc_head (a :: l)) as (top & rest & _ & _ & Hs & _);
    [congruence |].
  unfold nms. rewrite Hs. simpl.
  destruct (m <=? _)%Z; [reflexivity |].
  apply nms_loop_all_suppressed; [exact Ht | discriminate].
Qed.

Lemma nms_negative_threshold_witness :
  nms [Sample.det (8 # 10) 0 0 (1 # 2) (1 # 2); Sample.det (9 # 10) (1 # 2) 0 1 1]
      (-1 # 10) 50
  = take 1 (sorted_desc [Sample.det (8 # 10) 0 0 (1 # 2) (1 # 2);
                         Sample.det (9 # 10) (1 # 2) 0 1 1]).
Proof. apply nms_negative_threshold. vm_compute. reflexivity. Defined.

Lemma distinct_scores_filter (s : Q) (l : list Detection) :
  distinct_scores l -> (length (filter (fun e => score e == s) l) <= 1)%nat.
Proof.
  unfold distinct_scores. induction 1 as [| a l Ha Hl IH]; [simpl; lia |].
  rewrite filter_cons. destruct (decide (score a == s)) as [Hs | Hs]; [| exact IH].
  assert (Hnil : filter (fun e => score e == s) l = []).
  { clear IH Hl. induction Ha as [| e l He Hl IH]; [reflexivity |].
    rewrite filter_cons_False by (intros Hes; apply He; lra). exact IH. }
  rewrite Hnil. simpl. lia.
Qed.

(** X10.  When no two input detections have the same score, the order of
    the input does not matter: any rearrangement of the input is sorted to
    the same list and gives the same output. *)
Theorem nms_order_independent (dets dets' : list Detection) (t : Q) (m : Z) :
  distinct_scores dets -> dets ≡ₚ dets' ->
  sorted_desc dets = sorted_desc dets' /\ nms dets t m = nms dets' t m.
Proof.
  intros Hd Hp.
  assert (Hs : sorted_desc dets = sorted_desc dets').
  { apply stable_sorted_unique; try apply sorted_desc_sorted.
    intros s. rewrite !sorted_desc_stable.
    pose proof (distinct_scores_filter s dets Hd) as Hlen.
    assert (Hf : filter (fun e => score e == s) dets
                 ≡ₚ filter (fun e => score e == s) dets')
      by (rewrite Hp; reflexivity).
    destruct (filter (fun e => score e == s) dets) as [| x [| y ys]];
      [| | simpl in Hlen; lia].
    - apply Permutation_nil_l, Hf.
    - apply Permutation_singleton_l, Hf. }
  split; [exact Hs |].
  destruct dets as [| a l], dets' as [| a' l'].
  - reflexivity.
  - apply Permutation_nil_l in Hp. discriminate.
  - apply Permutation_nil_r in Hp. discriminate.
  - unfold nms. rewrite Hs. reflexivity.
Qed.

Lemma nms_order_independent_witness :
  sorted_desc [Sample.det (8 # 10) 0 0 (6 # 10) 1; Sample.det (9 # 10) 0 0 1 1]
  = sorted_desc [Sample.det (9 # 10) 0 0 1 1; Sample.det (8 # 10) 0 0 (6 # 10) 1] /\
  nms [Sample.det (8 # 10) 0 0 (6 # 10) 1; Sample.det (9 # 10) 0 0 1 1] (45 # 100) 50
  = nms [Sample.det (9 # 10) 0 0 1 1; Sample.det (8 # 10) 0 0 (6 # 10) 1] (45 # 100) 50.
Proof.
  apply nms_order_independent.
  - repeat constructor. vm_compute. discriminate.
  - apply Permutation_swap.
Defined.

(** ** Letterbox geometry, continued *)

Lemma round_int (x : Q) (n : Z) : x == inject_Z n -> Py.round x = n.
Proof.
  intros Hx. unfold Py.round.
  assert (Hf : Qfloor x = n) by (rewrite Hx; apply Qfloor_Z).
  rewrite Hf. case_ltb (x - inject_Z n) (1 # 2); [reflexivity | lra].
Qed.

Lemma round_nonneg (x : Q) : 0 <= x -> (0 <= Py.round x)%Z.
Proof.
  intros Hx.
  assert (Hf : (0 <= Qfloor x)%Z).
  { change 0%Z with (Qfloor 0). apply Qfloor_resp_le, Hx. }
  unfold Py.round.
  destruct (Py.ltb _ _); [exact Hf |].
  destruct (Py.ltb _ _); [lia |].
  destruct (Z.even _); lia.
Qed.

Lemma round_zero_iff (x : Q) : Py.round x = 0%Z <-> - (1 # 2) <= x <= 1 # 2.
Proof.
  split.
  - intros H0. pose proof (round_near x) as Hn. rewrite H0 in Hn.
    change (inject_Z 0) with 0 in Hn. lra.
  - intros [Hlo Hhi].
    pose proof (Qfloor_le x) as Hfl. pose proof (Qlt_floor x) as Hfu.
    rewrite inject_Z_plus in Hfu. change (inject_Z 1) with 1 in Hfu.
    assert (Hcases : Qfloor x = 0%Z \/ Qfloor x = (-1)%Z).
    { assert (-2 < Qfloor x)%Z by (rewrite Zlt_Qlt; change (inject_Z (-2)) with (-2 # 1); lra).
      assert (Qfloor x < 1)%Z by (rewrite Zlt_Qlt; change (inject_Z 1) with 1; lra).
      lia. }
    unfold Py.round. destruct Hcases as [Hf | Hf]; rewrite Hf in *.
    + change (inject_Z 0) with 0 in *.
      case_ltb (x - 0) (1 # 2); [reflexivity |].
      case_ltb (1 # 2) (x - 0); [lra | reflexivity].
    + change (inject_Z (-1)) with (-1 # 1) in *.
      case_ltb (x - (-1 # 1)) (1 # 2); [lra |].
      case_ltb (1 # 2) (x - (-1 # 1)); reflexivity.
Qed.

(** The geometry of an image that is not zero-sized, spelled out. *)
Lemma letterbox_geometry_ok (W H ms : Z) :
  W <> 0%Z -> H <> 0%Z ->
  letterbox_geometry (W, H) ms
  = let scale := Py.min (inject_Z ms / inject_Z W) (inject_Z ms / inject_Z H) in
    Ok {| dx := (ms - Py.round (inject_Z W * scale)) `div` 2;
          dy := (ms - Py.round (inject_Z H * scale)) `div` 2;
          draw_w := Py.round (inject_Z W * scale);
          draw_h := Py.round (inject_Z H * scale);
          model := ms; src_w := W; src_h := H |}.
Proof.
  intros HW HH. unfold letterbox_geometry, truediv.
  destruct (Z.eqb_spec W 0); [contradiction |].
  destruct (Z.eqb_spec H 0); [contradiction |].
  reflexivity.
Qed.

Lemma inject_Z_pos (n : Z) : (0 < n)%Z -> 0 < inject_Z n.
Proof. intros Hn. rewrite (Zlt_Qlt 0) in Hn. exact Hn. Qed.

Lemma inject_Z_nonneg (n : Z) : (0 <= n)%Z -> 0 <= inject_Z n.
Proof. intros Hn. rewrite (Zle_Qle 0) in Hn. exact Hn. Qed.

(** The scale of a non-negative model size, times a positive side. *)
Lemma scaled_side_nonneg (W H ms side : Z) :
  (0 < W)%Z -> (0 < H)%Z -> (0 <= ms)%Z -> (0 <= side)%Z ->
  0 <= inject_Z side
       * Py.min (inject_Z ms / inject_Z W) (inject_Z ms / inject_Z H).
Proof.
  intros HW HH Hms Hside.
  apply inject_Z_pos in HW, HH. apply inject_Z_nonneg in Hms, Hside.
  apply Qmult_le_0_compat; [exact Hside |].
  assert (0 <= inject_Z ms / inject_Z W)
    by (apply Qle_shift_div_l; [exact HW | lra]).
  assert (0 <= inject_Z ms / inject_Z H)
    by (apply Qle_shift_div_l; [exact HH | lra]).
  destruct (min_spec (inject_Z ms / inject_Z W) (inject_Z ms / inject_Z H))
    as (_ & _ & [-> | ->]); assumption.
Qed.

(** X11.  For a source of positive width and height and a non-negative
    model size, the drawn image lies inside the canvas and is centred: the
    drawn sides and the offsets are not negative, offset plus side does not
    pass the model size, and on each axis the margin after the image
    exceeds the margin before it by 0 or 1. *)
Theorem letterbox_fits_canvas (W H ms : Z) :
  (0 < W)%Z -> (0 < H)%Z -> (0 <= ms)%Z ->
  exists lb,
    letterbox_geometry (W, H) ms = Ok lb /\
    (0 <= draw_w lb)%Z /\ (0 <= draw_h lb)%Z /\
    (0 <= dx lb)%Z /\ (dx lb + draw_w lb <= ms)%Z /\
    (0 <= dy lb)%Z /\ (dy lb + draw_h lb <= ms)%Z /\
    (0 <= (ms - draw_w lb - dx lb) - dx lb <= 1)%Z /\
    (0 <= (ms - draw_h lb - dy lb) - dy lb <= 1)%Z.
Proof.
  intros HW HH Hms.
  rewrite letterbox_geometry_ok by lia. cbv zeta.
  set (scale := Py.min (inject_Z ms / inject_Z W) (inject_Z ms / inject_Z H)).
  eexists. split; [reflexivity |].
  cbn [dx dy draw_w draw_h].
  destruct (min_spec (inject_Z ms / inject_Z W) (inject_Z ms / inject_Z H))
    as (Hsw & Hsh & _). fold scale in Hsw, Hsh.
  assert (Hw0 : (0 <= Py.round (inject_Z W * scale))%Z)
    by (apply round_nonneg, scaled_side_nonneg; lia).
  assert (Hh0 : (0 <= Py.round (inject_Z H * scale))%Z)
    by (apply round_nonneg, scaled_side_nonneg; lia).
  assert (Hw1 : (Py.round (inject_Z W * scale) <= ms)%Z)
    by (apply round_le_int, scaled_side_le; assumption).
  assert (Hh1 : (Py.round (inject_Z H * scale) <= ms)%Z)
    by (apply round_le_int, scaled_side_le; assumption).
  pose proof (Z.div_mod (ms - Py.round (inject_Z W * scale)) 2 ltac:(lia)) as Hdx.
  pose proof (Z.mod_pos_bound (ms - Py.round (inject_Z W * scale)) 2 ltac:(lia)) as Hmx.
  pose proof (Z.div_mod (ms - Py.round (inject_Z H * scale)) 2 ltac:(lia)) as Hdy.
  pose proof (Z.mod_pos_bound (ms - Py.round (inject_Z H * scale)) 2 ltac:(lia)) as Hmy.
  repeat apply conj; lia.
Qed.

Lemma letterbox_fits_canvas_witness :
  exists lb,
    letterbox_geometry (1920, 1080)%Z 321 = Ok lb /\
    (0 <= draw_w lb)%Z /\ (0 <= draw_h lb)%Z /\
    (0 <= dx lb)%Z /\ (dx lb + draw_w lb <= 321)%Z /\
    (0 <= dy lb)%Z /\ (dy lb + draw_h lb <= 321)%Z /\
    (0 <= (321 - draw_w lb - dx lb) - dx lb <= 1)%Z /\
    (0 <= (321 - draw_h lb - dy lb) - dy lb <= 1)%Z.
Proof. apply letterbox_fits_canvas; lia. Defined.

Lemma round_compat (x y : Q) : x == y -> Py.round x = Py.round y.
Proof.
  intros Hxy. unfold Py.round. rewrite (Qfloor_comp x y Hxy).
  case_ltb (x - inject_Z (Qfloor y)) (1 # 2);
    case_ltb (y - inject_Z (Qfloor y)) (1 # 2); try lra; try reflexivity.
  case_ltb (1 # 2) (x - inject_Z (Qfloor y));
    case_ltb (1 # 2) (y - inject_Z (Qfloor y)); try lra; reflexivity.
Qed.

Lemma div_antitone (n a b : Q) : 0 <= n -> 0 < b -> b <= a -> n / a <= n / b.
Proof.
  intros Hn Hb Hab.
  apply Qle_shift_div_l; [exact Hb |].
  assert (Heq : n / a * b == b * n / a) by (field; lra).
  rewrite Heq. apply Qle_shift_div_r; [lra |].
  rewrite (Qmult_comm n a). apply Qmult_le_compat_r; assumption.
Qed.

(** With a non-negative model size the scale is the quotient by the longer
    side, whichever argument of [min] it is. *)
Lemma scale_by_long_side (ms long short : Z) :
  (0 < short)%Z -> (short <= long)%Z -> (0 <= ms)%Z ->
  Py.min (inject_Z ms / inject_Z long) (inject_Z ms / inject_Z short)
  == inject_Z ms / inject_Z long /\
  Py.min (inject_Z ms / inject_Z short) (inject_Z ms / inject_Z long)
  == inject_Z ms / inject_Z long.
Proof.
  intros Hs Hl Hms.
  assert (Hle : inject_Z ms / inject_Z long <= inject_Z ms / inject_Z short).
  { apply div_antitone; [apply inject_Z_nonneg, Hms | apply inject_Z_pos, Hs |].
    rewrite <- Zle_Qle. exact Hl. }
  unfold Py.min. split.
  - case_ltb (inject_Z ms / inject_Z short) (inject_Z ms / inject_Z long); lra.
  - case_ltb (inject_Z ms / inject_Z long) (inject_Z ms / inject_Z short); lra.
Qed.

Lemma long_side_rounds_to_model (long ms : Z) (scale : Q) :
  (0 < long)%Z -> scale == inject_Z ms / inject_Z long ->
  Py.round (inject_Z long * scale) = ms.
Proof.
  intros Hl Hs. apply round_int. rewrite Hs.
  apply inject_Z_pos in Hl. field. lra.
Qed.

(** X12.  For a non-negative model size the longer side of the source
    fills the canvas: if the source is at least as wide as high, the drawn
    width is the model size and the horizontal offset is 0, and likewise
    for the height of a source at least as high as wide. *)
Theorem letterbox_long_side_fills (W H ms : Z) :
  (0 < W)%Z -> (0 < H)%Z -> (0 <= ms)%Z ->
  exists lb,
    letterbox_geometry (W, H) ms = Ok lb /\
    ((H <= W)%Z -> draw_w lb = ms /\ dx lb = 0%Z) /\
    ((W <= H)%Z -> draw_h lb = ms /\ dy lb = 0%Z).
Proof.
  intros HW HH Hms.
  rewrite letterbox_geometry_ok by lia. cbv zeta.
  eexists. split; [reflexivity |]. cbn [dx dy draw_w draw_h].
  split; intros Hle.
  - destruct (scale_by_long_side ms W H HH Hle Hms) as [Hs _].
    rewrite (long_side_rounds_to_model W ms _ HW Hs), Z.sub_diag.
    split; reflexivity.
  - destruct (scale_by_long_side ms H W HW Hle Hms) as [_ Hs].
    rewrite (long_side_rounds_to_model H ms _ HH Hs), Z.sub_diag.
    split; reflexivity.
Qed.

Lemma letterbox_long_side_fills_witness :
  exists lb,
    letterbox_geometry (1080, 1920)%Z 320 = Ok lb /\
    ((1920 <= 1080)%Z -> draw_w lb = 320%Z /\ dx lb = 0%Z) /\
    ((1080 <= 1920)%Z -> draw_h lb = 320%Z /\ dy lb = 0%Z).
Proof. apply letterbox_long_side_fills; lia. Defined.

Lemma short_side_rounds_to_zero (short long ms : Z) (scale : Q) :
  (0 < short)%Z -> (0 < long)%Z -> (0 <= ms)%Z ->
  scale == inject_Z ms / inject_Z long ->
  Py.round (inject_Z short * scale) = 0%Z <-> (2 * ms * short <= long)%Z.
Proof.
  intros Hs Hl Hms Hscale.
  assert (Hq : inject_Z short * scale
               == inject_Z short * inject_Z ms / inject_Z long).
  { rewrite Hscale. apply inject_Z_pos in Hl. field. lra. }
  rewrite (round_compat _ _ Hq), round_zero_iff.
  rewrite Zle_Qle, !inject_Z_mult. change (inject_Z 2) with 2.
  pose proof (inject_Z_pos short Hs) as Hs'.
  pose proof (inject_Z_pos long Hl) as Hl'.
  pose proof (inject_Z_nonneg ms Hms) as Hms'.
  assert (Hnum : 0 <= inject_Z short * inject_Z ms)
    by (apply Qmult_le_0_compat; lra).
  split.
  - intros [_ Hhi].
    apply (Qmult_le_compat_r _ _ (inject_Z long)) in Hhi; [| lra].
    assert (Hc : inject_Z short * inject_Z ms / inject_Z long * inject_Z long
                 == inject_Z short * inject_Z ms) by (field; lra).
    rewrite Hc in Hhi. lra.
  - intros Hle. split.
    + assert (0 <= inject_Z short * inject_Z ms / inject_Z long)
        by (apply Qle_shift_div_l; [exact Hl' | lra]).
      lra.
    + apply Qle_shift_div_r; [exact Hl' | lra].
Qed.

(** X13.  For a non-negative model size the shorter side of the source is
    drawn with length 0 exactly when the source is at least [2 * model_size]
    times longer than it is short. *)
Theorem letterbox_degenerate_side (W H ms : Z) :
  (0 < W)%Z -> (0 < H)%Z -> (0 <= ms)%Z ->
  exists lb,
    letterbox_geometry (W, H) ms = Ok lb /\
    ((H <= W)%Z -> (draw_h lb = 0%Z <-> (2 * ms * H <= W)%Z)) /\
    ((W <= H)%Z -> (draw_w lb = 0%Z <-> (2 * ms * W <= H)%Z)).
Proof.
  intros HW HH Hms.
  rewrite letterbox_geometry_ok by lia. cbv zeta.
  eexists. split; [reflexivity |]. cbn [draw_w draw_h].
  split; intros Hle.
  - destruct (scale_by_long_side ms W H HH Hle Hms) as [Hs _].
    apply short_side_rounds_to_zero; assumption.
  - destruct (scale_by_long_side ms H W HW Hle Hms) as [_ Hs].
    apply short_side_rounds_to_zero; assumption.
Qed.

Lemma letterbox_degenerate_side_witness :
  exists lb,
    letterbox_geometry (2000, 3)%Z 320 = Ok lb /\
    ((3 <= 2000)%Z -> (draw_h lb = 0%Z <-> (2 * 320 * 3 <= 2000)%Z)) /\
    ((2000 <= 3)%Z -> (draw_w lb = 0%Z <-> (2 * 320 * 2000 <= 3)%Z)).
Proof. apply letterbox_degenerate_side; lia. Defined.

(** X14.  The drawn sides keep the aspect ratio of the source up to
    rounding: [draw_w * H] and [draw_h * W] differ by at most [(W + H) / 2]. *)
Theorem letterbox_keeps_aspect (W H ms : Z) :
  (0 < W)%Z -> (0 < H)%Z ->
  exists lb,
    letterbox_geometry (W, H) ms = Ok lb /\
    (- (W + H) <= 2 * (draw_w lb * H - draw_h lb * W) <= W + H)%Z.
Proof.
  intros HW HH.
  rewrite letterbox_geometry_ok by lia. cbv zeta.
  set (scale := Py.min (inject_Z ms / inject_Z W) (inject_Z ms / inject_Z H)).
  eexists. split; [reflexivity |]. cbn [draw_w draw_h].
  pose proof (round_near (inject_Z W * scale)) as [Hw1 Hw2].
  pose proof (round_near (inject_Z H * scale)) as [Hh1 Hh2].
  set (dw := Py.round (inject_Z W * scale)) in *.
  set (dh := Py.round (inject_Z H * scale)) in *.
  pose proof (inject_Z_pos W HW) as HW'. pose proof (inject_Z_pos H HH) as HH'.
  set (e1 := inject_Z dw - inject_Z W * scale).
  set (e2 := inject_Z dh - inject_Z H * scale).
  assert (He1 : - (1 # 2) <= e1 <= 1 # 2) by (unfold e1; lra).
  assert (He2 : - (1 # 2) <= e2 <= 1 # 2) by (unfold e2; lra).
  assert (Hp1 : - (1 # 2) * inject_Z H <= e1 * inject_Z H <= (1 # 2) * inject_Z H)
    by (split; apply Qmult_le_compat_r; lra).
  assert (Hp2 : - (1 # 2) * inject_Z W <= e2 * inject_Z W <= (1 # 2) * inject_Z W)
    by (split; apply Qmult_le_compat_r; lra).
  assert (Hid : inject_Z (dw * H - dh * W) == e1 * inject_Z H - e2 * inject_Z W).
  { unfold Z.sub. rewrite inject_Z_plus, inject_Z_opp, !inject_Z_mult.
    unfold e1, e2. ring. }
  rewrite !Zle_Qle, inject_Z_opp, inject_Z_mult, inject_Z_plus, Hid.
  change (inject_Z 2) with 2. lra.
Qed.

Lemma letterbox_keeps_aspect_witness :
  exists lb,
    letterbox_geometry (1920, 1080)%Z 320 = Ok lb /\
    (- (1920 + 1080) <= 2 * (draw_w lb * 1080 - draw_h lb * 1920) <= 1920 + 1080)%Z.
Proof. apply letterbox_keeps_aspect; lia. Defined.

(** ** The decoder, continued *)

Lemma omap_then_filter {A C : Type} (P : C -> Prop) `{!forall c, Decision (P c)}
    (f g : A -> option C) (l : list A) :
  (forall a, g a = f a ≫= fun c => if decide (P c) then Some c else None) ->
  omap g l = filter P (omap f l).
Proof.
  intros Hfg. induction l as [| a l IH]; [reflexivity |].
  change (omap g (a :: l))
    with (match g a with Some y => y :: omap g l | None => omap g l end).
  change (omap f (a :: l))
    with (match f a with Some y => y :: omap f l | None => omap f l end).
  rewrite Hfg, IH. destruct (f a) as [c |]; simpl; [| reflexivity].
  rewrite filter_cons. destruct (decide (P c)); reflexivity.
Qed.

Lemma candidate_raise_threshold (lb : Letterbox) (th1 th2 : Q) (cls : nat)
    (s x1 y1 x2 y2 : Q) :
  th1 <= th2 ->
  candidate lb th2 cls s x1 y1 x2 y2
  = candidate lb th1 cls s x1 y1 x2 y2
      ≫= fun d => if decide (th2 <= score d) then Some d else None.
Proof.
  intros Hth. unfold candidate.
  case_ltb s th2; case_ltb s th1; try lra; try reflexivity.
  - destruct (_ || _); [reflexivity |]. simpl.
    destruct (decide (th2 <= s)); [lra | reflexivity].
  - destruct (_ || _); [reflexivity |]. simpl.
    destruct (decide (th2 <= s)); [reflexivity | contradiction].
Qed.

Section DecoderMore.

Context `{B : Backend}.


End DecoderMore.


Lemma argmax_from_lt (col : list Q) (best : nat) (bv : Q) (i : nat) :
  (best < i)%nat -> (argmax_from best bv i col < i + length col)%nat.
Proof.
  revert best bv i. induction col as [| v vs IH]; intros best bv i Hb; simpl;
    [lia |].
  destruct (Py.ltb bv v).
  - specialize (IH i v (S i)). lia.
  - specialize (IH best bv (S i)). lia.
Qed.

Lemma argmax_lt (col : list Q) : col <> [] -> (argmax col < length col)%nat.
Proof.
  destruct col as [| v vs]; [congruence | intros _]. simpl.
  pose proof (argmax_from_lt vs 0 v 1). lia.
Qed.

Lemma candidate_inv (lb : Letterbox) (th : Q) (cls : nat) (s x1 y1 x2 y2 : Q)
    (d : Detection) :
  candidate lb th cls s x1 y1 x2 y2 = Some d ->
  label d = Z.of_nat cls /\ score d = s /\ th <= s.
Proof.
  unfold candidate. case_ltb s th; [discriminate |].
  destruct (_ || _); [discriminate |].
  intros [= <-]. simpl. auto.
Qed.

Lemma length_omap_le {A C : Type} (f : A -> option C) (l : list A) :
  (length (omap f l) <= length l)%nat.
Proof.
  induction l as [| a l IH]; [simpl; lia |].
  change (omap f (a :: l))
    with (match f a with Some y => y :: omap f l | None => omap f l end).
  destruct (f a); simpl; lia.
Qed.

Lemma amax_ge (vs : list Q) (v : Q) :
  v <= amax v vs /\ Forall (fun y => y <= amax v vs) vs.
Proof.
  unfold amax. revert v. induction vs as [| y ys IH]; intros v; simpl.
  - split; [lra | constructor].
  - case_ltb v y.
    + destruct (IH y) as [Hy Hys]. split; [lra |]. constructor; assumption.
    + destruct (IH v) as [Hv Hys]. split; [exact Hv |]. constructor; [lra | exact Hys].
Qed.

Lemma amin_le (vs : list Q) (v : Q) :
  amin v vs <= v /\ Forall (fun y => amin v vs <= y) vs.
Proof.
  unfold amin. revert v. induction vs as [| y ys IH]; intros v; simpl.
  - split; [lra | constructor].
  - case_ltb y v.
    + destruct (IH y) as [Hy Hys]. split; [lra |]. constructor; assumption.
    + destruct (IH v) as [Hv Hys]. split; [exact Hv |]. constructor; [lra | exact Hys].
Qed.

Lemma nth_in_range (P : Q -> Prop) (l : list Q) (i : nat) :
  P 0 -> Forall P l -> P (nth i l 0).
Proof.
  intros H0 Hl. revert i. induction Hl as [| y ys Hy Hys IH]; intros [| i]; simpl; auto.
Qed.

Section DecoderRanges.

Context `{B : Backend}.

Lemma decode_rows_bounds (lb : Letterbox) (th : Q) (nc : Z) (np : nat)
    (x : list (list Q)) (dets : list Detection) :
  decode_rows lb th nc np x = Ok dets ->
  (length dets <= np)%nat /\
  Forall (fun d => th <= score d /\ (0 <= label d < nc)%Z) dets.
Proof.
  unfold decode_rows.
  set (scores := py_slice 4 (4 + nc) x).
  destruct (concat scores) as [| v vs] eqn:Hcat; [discriminate |].
  match goal with
  | |- context [if ?c then ?a else scores] =>
      set (scores' := if c then a else scores)
  end.
  assert (Hlen : length scores' = length scores).
  { unfold scores'. destruct (_ || _); [apply length_map | reflexivity]. }
  assert (Hne : scores <> []) by (intros E; rewrite E in Hcat; discriminate).
  assert (Hpos : (0 < length scores)%nat).
  { destruct (length scores) eqn:E; [| lia].
    apply length_zero_iff_nil in E. congruence. }
  assert (Hnc : (Z.of_nat (length scores) <= nc)%Z).
  { assert (Hle : (length scores <= Z.to_nat (4 + nc - 4))%nat)
      by (unfold scores, py_slice; rewrite length_take; lia).
    lia. }
  intros H.
  repeat (apply bind_ok in H as (? & _ & H)).
  injection H as <-. split.
  - etransitivity; [apply length_omap_le |]. rewrite length_seq. lia.
  - apply Forall_forall. intros d Hd.
    apply list_elem_of_omap in Hd as (i & _ & Hd).
    apply candidate_inv in Hd as (Hl & Hs & Hth).
    rewrite Hl, Hs. split; [exact Hth |].
    assert (Hcol : column i scores' <> []).
    { intros E. apply (f_equal length) in E. unfold column in E.
      rewrite length_map, Hlen in E. simpl in E. lia. }
    pose proof (argmax_lt _ Hcol) as Harg.
    unfold column in Harg at 2. rewrite length_map, Hlen in Harg. lia.
Qed.


Lemma decode_rows_score_range (lb : Letterbox) (th : Q) (nc : Z) (np : nat)
    (x : list (list Q)) (dets : list Detection) :
  (forall v, 0 <= sigmoid v <= 1) ->
  decode_rows lb th nc np x = Ok dets ->
  Forall (fun d => 0 <= score d <= 1) dets.
Proof.
  intros Hsig. unfold decode_rows.
  set (scores := py_slice 4 (4 + nc) x).
  destruct (concat scores) as [| v vs] eqn:Hcat; [discriminate |].
  match goal with
  | |- context [if ?c then ?a else scores] =>
      set (scores' := if c then a else scores)
  end.
  assert (Hrange : Forall (Forall (fun y => 0 <= y <= 1)) scores').
  { unfold scores'.
    destruct (amax_ge vs v) as [Hv Hvs]. destruct (amin_le vs v) as [Hv' Hvs'].
    case_ltb 1 (amax v vs); simpl.
    - apply Forall_forall. intros r Hr.
      apply list_elem_of_fmap in Hr as (r0 & -> & _).
      apply Forall_forall. intros y Hy.
      apply list_elem_of_fmap in Hy as (y0 & -> & _). apply Hsig.
    - case_ltb (amin v vs) 0.
      + apply Forall_forall. intros r Hr.
        apply list_elem_of_fmap in Hr as (r0 & -> & _).
        apply Forall_forall. intros y Hy.
        apply list_elem_of_fmap in Hy as (y0 & -> & _). apply Hsig.
      + apply Forall_forall. intros r Hr. apply Forall_forall. intros y Hy.
        assert (Hin : y ∈ v :: vs).
        { rewrite <- Hcat. apply list_elem_of_In, in_concat.
          exists r. split; apply list_elem_of_In; assumption. }
        rewrite Forall_forall in Hvs, Hvs'.
        apply elem_of_cons in Hin as [-> | Hin].
        * lra.
        * specialize (Hvs y Hin). specialize (Hvs' y Hin). simpl in *. lra. }
  intros H.
  repeat (apply bind_ok in H as (? & _ & H)).
  injection H as <-.
  apply Forall_forall. intros d Hd.
  apply list_elem_of_omap in Hd as (i & _ & Hd).
  apply candidate_inv in Hd as (_ & -> & _).
  apply (nth_in_range (fun y => 0 <= y <= 1)); [lra |].
  set (c := argmax _).
  destruct (scores' !! c) as [r |] eqn:Hr.
  - rewrite (nth_lookup_Some _ _ _ _ Hr).
    rewrite Forall_forall in Hrange. apply Hrange.
    eapply list_elem_of_lookup_2, Hr.
  - rewrite nth_overflow by (apply lookup_ge_None, Hr). constructor.
Qed.


End DecoderRanges.

Lemma squash_range (v : Q) : 0 <= Sample.squash v <= 1.
Proof.
  unfold Sample.squash.
  pose proof (Qabs_nonneg v) as Ha. pose proof (Qle_Qabs v) as Hv.
  pose proof (Qle_Qabs (- v)) as Hv'. rewrite Qabs_opp in Hv'.
  assert (Hd : 0 < 2 * (1 + Qabs v)) by lra.
  assert (Hlo : - (1 # 2) <= v / (2 * (1 + Qabs v)))
    by (apply Qle_shift_div_l; [exact Hd | lra]).
  assert (Hhi : v / (2 * (1 + Qabs v)) <= 1 # 2)
    by (apply Qle_shift_div_r; [exact Hd | lra]).
  lra.
Qed.



(** ** The two layouts *)

Lemma rows_of_concat (c : nat) (M : list (list Q)) :
  Forall (fun r => length r = c) M -> rows_of (length M) c (concat M) = M.
Proof.
  induction 1 as [| r M Hr HM IH]; simpl; [reflexivity |].
  rewrite take_app_length' by (symmetry; exact Hr).
  rewrite drop_app_length' by (symmetry; exact Hr). rewrite IH. reflexivity.
Qed.

Lemma length_rows_of (r c : nat) (buf : list Q) : length (rows_of r c buf) = r.
Proof. revert buf. induction r as [| r IH]; intros buf; simpl; [| rewrite IH]; reflexivity. Qed.

Lemma transpose_shape (c : nat) (m : list (list Q)) :
  length (transpose c m) = c /\
  Forall (fun r => length r = length m) (transpose c m).
Proof.
  unfold transpose. split.
  - rewrite length_map, length_seq. reflexivity.
  - apply Forall_forall. intros r Hr.
    apply list_elem_of_fmap in Hr as (j & -> & _). apply length_map.
Qed.

Section Layouts.

Context `{B : Backend}.

(** X18.  The two exports of one model decode alike: for [k] attribute
    rows and [n > k] candidates, [k >= 6], a box-first output of shape
    (b, n, k) and the channel-first output of shape (1, k, n) that holds
    the transpose of its first batch entry give the same result. *)
Theorem decode_layouts_agree (name name' : string) (b n k : nat) (buf : list Q)
    (lb : Letterbox) (th : Q) :
  (6 <= k)%nat -> (k < n)%nat ->
  decode_yolov8 [(name, {| shape := [S b; n; k]; data := buf |})] lb th
  = decode_yolov8
      [(name', {| shape := [1%nat; k; n];
                  data := concat (transpose k (rows_of n k buf)) |})] lb th.
Proof.
  intros Hk Hn. unfold decode_yolov8, first_output.
  cbn [mbind result_bind shape data].
  assert (Hg1 : (6 <=? n)%nat || (6 <=? k)%nat = true)
    by (apply orb_true_iff; right; apply Nat.leb_le, Hk).
  assert (Hg2 : (6 <=? k)%nat || (6 <=? n)%nat = true)
    by (apply orb_true_iff; left; apply Nat.leb_le, Hk).
  rewrite Hg1, Hg2. unfold channel_first. cbn [Nat.eqb mbind result_bind data].
  assert (Hl1 : choose_layout n k = BoxFirst).
  { destruct (choose_layout n k) eqn:E; [| reflexivity].
    apply choose_layout_channel_first in E. lia. }
  assert (Hl2 : choose_layout k n = ChannelFirst)
    by (apply choose_layout_channel_first; lia).
  rewrite Hl1, Hl2. cbn [mbind result_bind].
  destruct (transpose_shape k (rows_of n k buf)) as [Hlen Hrows].
  rewrite length_rows_of in Hrows.
  pose proof (rows_of_concat n _ Hrows) as Hrt. rewrite Hlen in Hrt.
  rewrite Hrt. reflexivity.
Qed.

End Layouts.

Lemma decode_layouts_agree_witness :
  decode_yolov8 (B := Sample.backend Sample.one_box)
    [("output0", {| shape := [1; 7; 6]%nat;
                    data := map (fun i => inject_Z (Z.of_nat i) / 50) (seq 0 42) |})]
    {| dx := 0; dy := 0; draw_w := 320; draw_h := 320;
       model := 320; src_w := 320; src_h := 320 |} (25 # 100)
  = decode_yolov8 (B := Sample.backend Sample.one_box)
      [("output0",
        {| shape := [1; 6; 7]%nat;
           data := concat (transpose 6
                     (rows_of 7 6 (map (fun i => inject_Z (Z.of_nat i) / 50)
                                       (seq 0 42)))) |})]
      {| dx := 0; dy := 0; draw_w := 320; draw_h := 320;
         model := 320; src_w := 320; src_h := 320 |} (25 # 100).
Proof.
  apply (decode_layouts_agree (B := Sample.backend Sample.one_box)); lia.
Defined.

(** ** Failures of the decoder *)

Lemma rows_of_row_lengths (r c : nat) (buf : list Q) :
  (r * c <= length buf)%nat -> Forall (fun row => length row = c) (rows_of r c buf).
Proof.
  revert buf. induction r as [| r IH]; intros buf Hlen; simpl; constructor.
  - rewrite length_take. lia.
  - apply IH. rewrite length_drop. lia.
Qed.

Section DecoderFailures.

Context `{B : Backend}.

(** On a matrix of [R] rows of [N] elements each, with [R - 4] class rows,
    lines 113-151 raise exactly when there is no class score at all. *)
Lemma decode_rows_raises (lb : Letterbox) (th : Q) (np : nat) (x : list (list Q))
    (N : nat) :
  Forall (fun row => length row = N) x ->
  decode_rows lb th (Z.of_nat (length x) - 4) np x
  = (if decide (length x <= 4 \/ N = 0)%nat then Raise ValueError
     else decode_rows lb th (Z.of_nat (length x) - 4) np x) /\
  ((4 < length x)%nat -> (0 < N)%nat ->
   is_ok (decode_rows lb th (Z.of_nat (length x) - 4) np x) = true).
Proof.
  intros Hrows.
  assert (Hscores : py_slice 4 (4 + (Z.of_nat (length x) - 4)) x = drop 4 x).
  { unfold py_slice. change (Z.to_nat 4) with 4%nat.
    apply take_ge. rewrite length_drop. lia. }
  split.
  - destruct (decide _) as [Hbad | _]; [| reflexivity].
    unfold decode_rows. rewrite Hscores.
    assert (Hnil : concat (drop 4 x) = []).
    { destruct Hbad as [HR | ->].
      - rewrite drop_ge by exact HR. reflexivity.
      - assert (Hd : Forall (fun row => length row = 0%nat) (drop 4 x))
          by (apply Forall_drop, Hrows).
        clear Hscores. induction Hd as [| r rs Hr _ IH]; [reflexivity |].
        simpl. apply length_zero_iff_nil in Hr. rewrite Hr, IH. reflexivity. }
    rewrite Hnil. reflexivity.
  - intros HR HN. unfold decode_rows. rewrite Hscores.
    destruct x as [| r0 [| r1 [| r2 [| r3 [| r4 rest]]]]]; simpl in HR; try lia.
    assert (Hr4 : length r4 = N).
    { do 4 apply Forall_cons in Hrows as [_ Hrows].
      apply Forall_cons in Hrows as [Hrows _]. exact Hrows. }
    destruct r4 as [| v vs]; [simpl in Hr4; lia |].
    reflexivity.
Qed.

(** X19.  On an array of shape (d0, d1, d2) that holds [d0 * d1 * d2]
    elements the decoder raises in two cases only: [IndexError] when the
    shape passes the guard and the batch dimension is 0, and [ValueError]
    when the batch is not empty and there is no class score, which is so
    when the box-first reading has at most four attribute columns or no
    candidate row.  In every other case it returns a list. *)
Theorem decode_failures (name : string) (out : ndarray) (d0 d1 d2 : nat)
    (lb : Letterbox) (th : Q) :
  shape out = [d0; d1; d2] -> length (data out) = (d0 * d1 * d2)%nat ->
  (decode_yolov8 [(name, out)] lb th = Raise IndexError
   <-> d0 = 0%nat /\ (6 <= d1 \/ 6 <= d2)%nat) /\
  (decode_yolov8 [(name, out)] lb th = Raise ValueError
   <-> d0 <> 0%nat /\ ((6 <= d1 /\ d2 <= 4) \/ (d1 = 0 /\ 6 <= d2))%nat) /\
  (forall e, decode_yolov8 [(name, out)] lb th = Raise e ->
             e = IndexError \/ e = ValueError).
Proof.
  intros Hshape Hdata.
  assert (Hcases :
    (d0 = 0%nat /\ (6 <= d1 \/ 6 <= d2)%nat /\
     decode_yolov8 [(name, out)] lb th = Raise IndexError) \/
    (d0 <> 0%nat /\ ((6 <= d1 /\ d2 <= 4) \/ (d1 = 0 /\ 6 <= d2))%nat /\
     decode_yolov8 [(name, out)] lb th = Raise ValueError) \/
    (~ (d0 = 0%nat /\ (6 <= d1 \/ 6 <= d2)%nat) /\
     ~ (d0 <> 0%nat /\ ((6 <= d1 /\ d2 <= 4) \/ (d1 = 0 /\ 6 <= d2))%nat) /\
     is_ok (decode_yolov8 [(name, out)] lb th) = true)).
  { assert (Hbox : forall x,
                x = transpose d2 (rows_of d1 d2 (data out)) ->
                decode_rows lb th (Z.of_nat d2 - 4) d1 x
                = (if decide (d2 <= 4 \/ d1 = 0)%nat then Raise ValueError
                   else decode_rows lb th (Z.of_nat d2 - 4) d1 x) /\
                ((4 < d2)%nat -> (0 < d1)%nat ->
                 is_ok (decode_rows lb th (Z.of_nat d2 - 4) d1 x) = true)).
    { intros x ->.
      destruct (transpose_shape d2 (rows_of d1 d2 (data out))) as [Hlen Hrows].
      rewrite length_rows_of in Hrows.
      pose proof (decode_rows_raises lb th d1 _ d1 Hrows) as Hr.
      rewrite Hlen in Hr. exact Hr. }
    unfold decode_yolov8, first_output. cbn [mbind result_bind].
    rewrite Hshape. unfold channel_first.
    destruct (Nat.leb_spec 6 d1) as [H1 | H1], (Nat.leb_spec 6 d2) as [H2 | H2];
      cbn [orb].
    - destruct d0 as [| d0']; cbn [Nat.eqb mbind result_bind].
      { left. split; [reflexivity | split; [lia | reflexivity]]. }
      right. right. split; [lia |].
      destruct (choose_layout d1 d2) eqn:Hlay; cbn [mbind result_bind].
      + apply choose_layout_channel_first in Hlay. split; [lia |].
        assert (Hbuf : (d1 * d2 <= length (data out))%nat) by nia.
        pose proof (rows_of_row_lengths d1 d2 (data out) Hbuf) as Hrows.
        pose proof (decode_rows_raises lb th d2 _ d2 Hrows) as [_ Hok].
        rewrite length_rows_of in Hok. apply Hok; lia.
      + split; [lia |]. apply (Hbox _ eq_refl); lia.
    - destruct d0 as [| d0']; cbn [Nat.eqb mbind result_bind].
      { left. split; [reflexivity | split; [lia | reflexivity]]. }
      assert (Hlay : choose_layout d1 d2 = BoxFirst).
      { destruct (choose_layout d1 d2) eqn:E; [| reflexivity].
        apply choose_layout_channel_first in E. lia. }
      rewrite Hlay. cbn [mbind result_bind].
      destruct (Hbox _ eq_refl) as [Hbad Hok].
      destruct (decide (d2 <= 4)%nat) as [H4 | H4].
      + right. left. split; [lia | split; [lia |]].
        rewrite Hbad. destruct (decide _) as [_ | Hn]; [reflexivity | lia].
      + right. right. split; [lia | split; [lia | apply Hok; lia]].
    - destruct d0 as [| d0']; cbn [Nat.eqb mbind result_bind].
      { left. split; [reflexivity | split; [lia | reflexivity]]. }
      assert (Hlay : choose_layout d1 d2 = BoxFirst).
      { destruct (choose_layout d1 d2) eqn:E; [| reflexivity].
        apply choose_layout_channel_first in E. lia. }
      rewrite Hlay. cbn [mbind result_bind].
      destruct (Hbox _ eq_refl) as [Hbad Hok].
      destruct (decide (d1 = 0)%nat) as [H0 | H0].
      + right. left. split; [lia | split; [lia |]].
        rewrite Hbad. destruct (decide _) as [_ | Hn]; [reflexivity | lia].
      + right. right. split; [lia | split; [lia | apply Hok; lia]].
    - right. right. split; [lia | split; [lia | reflexivity]]. }
  destruct Hcases as [(Ha & Hb & Hc) | [(Ha & Hb & Hc) | (Ha & Hb & Hc)]].
  - rewrite Hc. split; [| split].
    + split; [intros _; split; assumption | reflexivity].
    + split; [discriminate | intros [Hn _]; contradiction].
    + intros e [= <-]. left. reflexivity.
  - rewrite Hc. split; [| split].
    + split; [discriminate | intros [Hz _]; contradiction].
    + split; [intros _; split; assumption | reflexivity].
    + intros e [= <-]. right. reflexivity.
  - destruct (decode_yolov8 _ _ _) as [dets | e]; [| discriminate].
    split; [| split].
    + split; [discriminate | intros Hx; contradiction].
    + split; [discriminate | intros Hx; contradiction].
    + intros e. discriminate.
Qed.

End DecoderFailures.

Lemma decode_failures_witness :
  decode_yolov8 (B := Sample.backend Sample.one_box)
    [("output0", {| shape := [1; 8; 4]%nat;
                    data := map (fun i => inject_Z (Z.of_nat i)) (seq 0 32) |})]
    {| dx := 0; dy := 0; draw_w := 320; draw_h := 320;
       model := 320; src_w := 320; src_h := 320 |} (25 # 100)
  = Raise ValueError.
Proof.
  apply (proj1 (proj2 (decode_failures (B := Sample.backend Sample.one_box)
                         "output0"
                         {| shape := [1; 8; 4]%nat;
                            data := map (fun i => inject_Z (Z.of_nat i)) (seq 0 32) |}
                         1 8 4 _ (25 # 100) eq_refl eq_refl))).
  split; [lia | left; lia].
Defined.

(** ** The session loop, continued *)

Section SessionMore.

Context `{B : Backend}.

Lemma now_ms_inv (t t1 : nat) (a : Q) :
  now_ms t = (Ok a, t1) -> a = perf_counter t * 1000 /\ t1 = S t.
Proof. unfold now_ms. intros [= <- <-]. auto. Qed.

(** A frame that passes the [try] block read the clock twice; its result
    carries the frame id, the capture time and the three timestamps. *)
Lemma process_frame_inv (f : Z) (c ts : Q) (image : pyval) (t t' : nat)
    (r : response) :
  process_frame f c ts image t = (Ok r, t') ->
  t' = S (S t) /\
  exists dets,
    r = FrameResult f c ts (perf_counter (S t) * 1000)
          (perf_counter (S t) * 1000 - perf_counter t * 1000) dets.
Proof.
  unfold process_frame. intros H.
  apply mbind_ok in H as (img & t1 & H1 & H). apply lift_ok in H1 as [_ ->].
  apply mbind_ok in H as ([arr lb] & t2 & H2 & H). apply lift_ok in H2 as [_ ->].
  apply mbind_ok in H as (name & t3 & H3 & H). apply lift_ok in H3 as [_ ->].
  apply mbind_ok in H as (t0 & t4 & H4 & H). apply now_ms_inv in H4 as [-> ->].
  apply mbind_ok in H as (outputs & t5 & H5 & H). apply lift_ok in H5 as [_ ->].
  apply mbind_ok in H as (tm1 & t6 & H6 & H). apply now_ms_inv in H6 as [-> ->].
  apply mbind_ok in H as (dets & t7 & H7 & H). apply lift_ok in H7 as [_ ->].
  injection H as <- <-. split; [reflexivity |]. eexists. reflexivity.
Qed.

(** A frame that fails in the [try] block read the clock at most twice. *)
Lemma process_frame_raise_clock (f : Z) (c ts : Q) (image : pyval) (t t' : nat)
    (e : exn) :
  process_frame f c ts image t = (Raise e, t') -> (t <= t' <= S (S t))%nat.
Proof.
  unfold process_frame, mbind, M_bind, lift, now_ms.
  destruct (decode_image_from_b64 image); [| intros [= _ <-]; lia].
  destruct (preprocess_letterbox _ _) as [[arr lb] |]; [| intros [= _ <-]; lia].
  destruct session_input_name; [| intros [= _ <-]; lia].
  destruct (session_run _ _); [| intros [= _ <-]; lia].
  destruct (decode_yolov8 _ _ _); [discriminate | intros [= _ <-]; lia].
Qed.

(** One message whose envelope converts: exactly one response, which
    answers it, after at most three clock readings. *)
Lemma handle_message_answers (msg : pyval) (t : nat) (f : Z) (c : Q) :
  frame_id_of msg = Ok f -> capture_ts_of msg = Ok c ->
  exists r t', handle_message msg t = (Ok r, t') /\ answers msg r /\
               (t <= t' <= t + 3)%nat.
Proof.
  intros Hf Hc. unfold handle_message, mbind at 1 2 3, M_bind, lift.
  rewrite Hf, Hc.
  destruct msg as [| | | | | | m]; try discriminate.
  cbn [py_get]. destruct (truthy (default VNone (m !! "image_b64"))) eqn:Htr;
    cbn [negb].
  - unfold mbind, M_bind, now_ms, try_except.
    destruct (process_frame _ _ _ _ _) as [[r | e] t1] eqn:Hp.
    + apply process_frame_inv in Hp as [-> [dets ->]].
      eexists _, _. split; [reflexivity |]. split; [split; assumption | lia].
    + apply process_frame_raise_clock in Hp.
      eexists _, _. split; [reflexivity |]. split; [exact Hf | lia].
  - eexists _, _. split; [reflexivity |]. split; [| lia].
    split; [reflexivity |]. eexists. split; [reflexivity | exact Htr].
Qed.


End SessionMore.


Section SessionFailures.

Context `{B : Backend}.

Lemma process_frame_first_failure (f : Z) (c ts : Q) (image : pyval) (t : nat)
    (e : exn) :
  first_failure image e ->
  exists t', process_frame f c ts image t = (Raise e, t') /\ (t <= t' <= t + 2)%nat.
Proof.
  unfold first_failure, process_frame, mbind, M_bind, lift, now_ms.
  intros [H | (img & -> & [H | (arr & lb & -> & [H | (name & -> & [H | (outputs & -> & H)])])])];
    rewrite H; eexists; (split; [reflexivity | lia]).
Qed.



End SessionFailures.



(** ** Timestamps *)

Section Timing.

Context `{B : Backend}.

Lemma clock_mono (n m : nat) :
  monotone_clock -> (n <= m)%nat -> perf_counter n <= perf_counter m.
Proof.
  intros Hmono Hnm. induction Hnm as [| m Hnm IH]; [lra |].
  specialize (Hmono m). lra.
Qed.

(** The timestamps of one response lie between the clock reading at which
    its message was taken up and the one at which it was answered. *)
Lemma handle_message_stamps (msg : pyval) (t t' : nat) (r : response) :
  monotone_clock -> handle_message msg t = (Ok r, t') ->
  (t <= t')%nat /\ StronglySorted Qle (stamps r) /\
  Forall (fun q => perf_counter t * 1000 <= q <= perf_counter t' * 1000) (stamps r).
Proof.
  intros Hmono H. unfold handle_message in H.
  apply mbind_ok in H as (f & t1 & H1 & H). apply lift_ok in H1 as [_ ->].
  apply mbind_ok in H as (c & t2 & H2 & H). apply lift_ok in H2 as [_ ->].
  apply mbind_ok in H as (image & t3 & H3 & H). apply lift_ok in H3 as [_ ->].
  destruct (negb (truthy image)).
  - injection H as <- <-. repeat split; [lia | constructor | constructor].
  - apply mbind_ok in H as (ts & t4 & H4 & H). apply now_ms_inv in H4 as [-> ->].
    unfold try_except in H.
    destruct (process_frame _ _ _ _ _) as [[r' | e] t5] eqn:Hp.
    + injection H as <- <-.
      apply process_frame_inv in Hp as [-> [dets ->]]. cbn [stamps].
      pose proof (Hmono t) as Ha. pose proof (Hmono (S t)) as Hb.
      pose proof (Hmono (S (S t))) as Hc.
      split; [lia |]. split.
      * repeat constructor; lra.
      * repeat constructor; lra.
    + injection H as <- <-. apply process_frame_raise_clock in Hp.
      repeat split; [lia | constructor | constructor].
Qed.

(** X23.  With a clock that does not run backwards, the timestamps of a
    session's responses never decrease: within a frame result the receipt
    time is at most the start of inference ([inference_ts - inference_ms]),
    which is at most its end, and the end is at most the receipt time of
    every later frame result. *)
Theorem session_timestamps_ordered (inbound : list recv) (t : nat) :
  monotone_clock ->
  StronglySorted Qle (concat (map stamps (detect_ws inbound t).1)).
Proof.
  intros Hmono.
  assert (Hinv : forall inbound t,
    StronglySorted Qle (concat (map stamps (detect_ws inbound t).1)) /\
    Forall (fun q => perf_counter t * 1000 <= q)
      (concat (map stamps (detect_ws inbound t).1))).
  { clear inbound t. intros inbound.
    induction inbound as [| ev rest IH]; intros t; cbn [detect_ws].
    - split; constructor.
    - destruct ev as [msg | |]; [| apply IH | split; constructor].
      destruct (handle_message msg t) as [[r | e] t'] eqn:Hm;
        [| split; constructor].
      destruct (handle_message_stamps msg t t' r Hmono Hm) as (Ht & Hs & Hb).
      destruct (IH t') as [IHs IHb].
      destruct (detect_ws rest t') as [sent o]. cbn [fst snd map concat] in *.
      rewrite Forall_forall in Hb, IHb. split.
      + apply StronglySorted_app_2; [| exact Hs | exact IHs].
        intros x y Hx Hy. specialize (Hb x Hx). specialize (IHb y Hy).
        simpl in *. lra.
      + apply Forall_app. split; apply Forall_forall.
        * intros x Hx. specialize (Hb x Hx). simpl in Hb. lra.
        * intros y Hy. specialize (IHb y Hy). simpl in IHb.
          pose proof (clock_mono t t' Hmono Ht). lra. }
  apply Hinv.
Qed.

End Timing.

Lemma session_timestamps_ordered_witness :
  StronglySorted Qle
    (concat (map stamps
       (detect_ws (B := Sample.backend Sample.one_box)
          [Received (Sample.frame 1 "320x320");
           Received (Sample.frame 2 "320x320")] 0%nat).1)).
Proof.
  apply (session_timestamps_ordered (B := Sample.backend Sample.one_box)).
  intros n. unfold perf_counter, Sample.backend.
  rewrite <- Zle_Qle. lia.
Defined.

(** ** Payloads *)

Lemma truthy_false_iff (v : pyval) :
  truthy v = false <->
  v = VNone \/ v = VBool false \/ v = VInt 0 \/ (exists q, v = VFloat q /\ q == 0) \/
  v = VStr "" \/ v = VList [] \/ v = VDict ∅.
Proof.
  split.
  - destruct v as [| b | z | q | s | l | m]; simpl; intros H.
    + auto.
    + subst b. auto.
    + apply negb_false_iff, Z.eqb_eq in H. subst z. auto 10.
    + apply negb_false_iff, Qeq_bool_iff in H. right. right. right. left. eauto.
    + apply negb_false_iff, String.eqb_eq in H. subst s. auto 10.
    + destruct l; [auto 10 | discriminate].
    + apply negb_false_iff, bool_decide_eq_true in H. subst m. auto 10.
  - intros [-> | [-> | [-> | [(q & -> & Hq) | [-> | [-> | ->]]]]]]; simpl;
      try reflexivity.
    apply negb_false_iff, Qeq_bool_iff, Hq.
Qed.

Lemma after_comma_none (s : string) : after_comma s = None <-> no_comma s.
Proof.
  unfold no_comma. induction s as [| c s IH]; simpl.
  - split; [constructor | reflexivity].
  - destruct (Ascii.eqb_spec c (Ascii.ascii_of_nat 44)) as [-> | Hc].
    + split; [discriminate |]. intros H. apply Forall_cons in H as [H _].
      congruence.
    + rewrite IH. split.
      * intros H. constructor; assumption.
      * intros H. apply Forall_cons in H as [_ H]. exact H.
Qed.

Lemma after_comma_prefix (prefix payload : string) :
  no_comma prefix -> after_comma (prefix +:+ "," +:+ payload) = Some payload.
Proof.
  unfold no_comma. induction prefix as [| c s IH]; simpl; intros H.
  - reflexivity.
  - apply Forall_cons in H as [Hc H].
    destruct (Ascii.eqb_spec c (Ascii.ascii_of_nat 44)); [contradiction |].
    apply IH, H.
Qed.

Section Payloads.

Context `{B : Backend}.


(** X25.  A data URL and the plain payload decode alike: the text up to
    the first comma is dropped before the codec is called, so a prefix
    without comma, a comma and a payload go to the codec as the payload
    alone, which is also what the payload alone does when it holds no
    comma. *)
Theorem data_url_prefix_is_dropped (prefix payload : string) :
  no_comma prefix ->
  decode_image_from_b64 (VStr (prefix +:+ "," +:+ payload)) = image_open payload /\
  (no_comma payload ->
   decode_image_from_b64 (VStr (prefix +:+ "," +:+ payload))
   = decode_image_from_b64 (VStr payload)).
Proof.
  intros Hp. unfold decode_image_from_b64.
  rewrite (after_comma_prefix prefix payload Hp). cbv [default from_option id].
  split; [reflexivity |].
  intros Hq. apply after_comma_none in Hq. rewrite Hq. reflexivity.
Qed.

(** X26.  The loop is causal and stops for good: the responses to a prefix
    of the inbound stream are a prefix of the responses to the whole
    stream, and once the loop has ended on a disconnect or on an escaped
    exception, nothing that arrives later changes the run. *)
Theorem session_is_causal (inbound later : list recv) (t : nat) :
  (detect_ws inbound t).1 `prefix_of` (detect_ws (inbound ++ later) t).1 /\
  ((detect_ws inbound t).2 <> Receiving ->
   detect_ws (inbound ++ later) t = detect_ws inbound t).
Proof.
  revert t. induction inbound as [| ev rest IH]; intros t.
  - split; [apply prefix_nil | intros H; contradiction H; reflexivity].
  - destruct ev as [msg | |]; cbn [app detect_ws].
    + destruct (handle_message msg t) as [[r | e] t'].
      * destruct (IH t') as [Hpre Hstop].
        destruct (detect_ws rest t') as [sent o],
                 (detect_ws (rest ++ later) t') as [sent' o'].
        cbn [fst snd] in *. split; [apply prefix_cons, Hpre |].
        intros Ho. specialize (Hstop Ho). injection Hstop as -> ->. reflexivity.
      * split; [apply prefix_nil | reflexivity].
    + apply IH.
    + split; [apply prefix_nil | reflexivity].
Qed.

End Payloads.


Lemma data_url_prefix_is_dropped_witness :
  decode_image_from_b64 (B := Sample.backend Sample.one_box)
    (VStr ("data:image/jpeg;base64" +:+ "," +:+ "640x480"))
  = Ok (640, 480)%Z.
Proof.
  apply (proj1 (data_url_prefix_is_dropped (B := Sample.backend Sample.one_box)
                  "data:image/jpeg;base64" "640x480"
                  ltac:(unfold no_comma; simpl; repeat constructor; discriminate))).
Defined.

(** ** Zero-sized images *)

(** X27.  The geometry computation succeeds exactly on sizes with a
    non-zero width and a non-zero height, for every model size, and the
    only exception it raises is the [ZeroDivisionError] of the scale
    division. *)
Theorem letterbox_geometry_total (W H ms : Z) :
  (is_ok (letterbox_geometry (W, H) ms) = true <-> W <> 0%Z /\ H <> 0%Z) /\
  (forall e, letterbox_geometry (W, H) ms = Raise e -> e = ZeroDivisionError).
Proof.
  split.
  - split.
    + intros Hok. destruct (letterbox_geometry (W, H) ms) as [lb | e] eqn:Hg;
        [| discriminate].
      split; intros Hz; subst;
        [assert (Hr : letterbox_geometry (0%Z, H) ms = Raise ZeroDivisionError)
           by (apply letterbox_geometry_raises; auto)
        | assert (Hr : letterbox_geometry (W, 0%Z) ms = Raise ZeroDivisionError)
           by (apply letterbox_geometry_raises; auto)];
        congruence.
    + intros [HW HH]. rewrite letterbox_geometry_ok by assumption. reflexivity.
  - intros e He. apply letterbox_geometry_raises in He as [_ ->]. reflexivity.
Qed.

(** ** What a session sends *)

Section SessionResults.

Context `{B : Backend}.

Lemma process_frame_dets (f : Z) (c ts : Q) (image : pyval) (t t' : nat)
    (fid : Z) (cts rts its ims : Q) (dets : list Detection) :
  process_frame f c ts image t = (Ok (FrameResult fid cts rts its ims dets), t') ->
  exists outputs lb decoded,
    decode_yolov8 outputs lb (25 # 100) = Ok decoded /\
    dets = nms decoded (45 # 100) 50.
Proof.
  unfold process_frame. intros H.
  apply mbind_ok in H as (img & t1 & _ & H).
  apply mbind_ok in H as ([arr lb] & t2 & _ & H).
  apply mbind_ok in H as (name & t3 & _ & H).
  apply mbind_ok in H as (t0 & t4 & _ & H).
  apply mbind_ok in H as (outputs & t5 & _ & H).
  apply mbind_ok in H as (tm1 & t6 & _ & H).
  apply mbind_ok in H as (decoded & t7 & Hdec & H).
  apply lift_ok in Hdec as [Hdec _].
  injection H as _ _ _ _ _ <- _. eauto.
Qed.


(** X29.  A session never sends more responses than it received messages
    before the first disconnect, and when an exception leaves the loop it
    has sent fewer: the message that raised is left unanswered. *)
Theorem session_never_over_answers (inbound : list recv) (t : nat) :
  (length (detect_ws inbound t).1 <= length (received inbound))%nat /\
  (forall e, (detect_ws inbound t).2 = Propagated e ->
             (length (detect_ws inbound t).1 < length (received inbound))%nat).
Proof.
  revert t. induction inbound as [| ev rest IH]; intros t;
    cbn [detect_ws received].
  - split; [simpl; lia | discriminate].
  - destruct ev as [msg | |]; [| apply IH | split; [simpl; lia | discriminate]].
    destruct (handle_message msg t) as [[r | e] t1].
    + destruct (IH t1) as [Hle Hlt]. destruct (detect_ws rest t1) as [sent o].
      cbn [fst snd length] in *. split; [lia |].
      intros e' He. specialize (Hlt e' He). lia.
    + cbn [fst snd length]. split; [lia | intros; lia].
Qed.

End SessionResults.
